(** * LoveAI: compatibility scoring, mutual likes, read receipts and logout

    A shallow embedding of the parts of the LoveAI front end that carry
    logic of their own:

    - [js/ai-matching.js]: [AIMatchingEngine.calculateCompatibility] and its
      fallback [calculateSimpleCompatibility];
    - [js/auth-backend.js]: [DatingAppDB.checkMutualLike],
      [DatingAppDB.markMessagesAsRead], [BackendAPI.apiCall],
      [BackendAPI.logout] and [BackendAPI.isLoggedIn].

    Conventions of the embedding.

    - A JavaScript number is a [num]: a rational, [NaN] or an infinity.
      A double is read as the rational it denotes; sums, differences and
      products are rounded to the nearest double, a tie going to the even
      mantissa, as IEEE 754 has it.
    - A JavaScript string is a [string], the bytes of its UTF-8 form.
      Comparing, and searching for and splitting at ASCII text, act on the
      bytes as they do on the code units; case mapping and trimming follow
      the Unicode tables and are the platform's, a parameter of the model.
    - An [async] method is a computation in the monad [M]: a function from
      the values the environment supplies and the mutable state to an outcome
      ([Ok] or [Throw]) and the next state.  [await] is sequencing; a
      rejected promise is [Throw].
    - An IndexedDB object store with [keyPath: 'id'] is a finite map from
      the key to the rest of the record. *)

From Stdlib Require Import ZArith QArith Qround Qabs Lia Lqa Ascii String.
From stdpp Require Import base gmap strings list sorting pretty.

Local Open Scope string_scope.
Local Open Scope Z_scope.
Local Open Scope list_scope.

(** ** JavaScript values *)

Module Js.

(** Numbers. *)
Inductive num : Type :=
| NaN
| NegInf
| Fin (q : Q)
| PosInf.

(** [-a] *)
Definition num_opp (a : num) : num :=
  match a with
  | NaN => NaN
  | NegInf => PosInf
  | Fin x => Fin (- x)
  | PosInf => NegInf
  end.

(** The integer nearest to [y], a tie going to the even one. *)
Definition nearestEven (y : Q) : Z :=
  let f := Qfloor y in
  match (y - inject_Z f ?= 1 # 2)%Q with
  | Lt => f
  | Gt => f + 1
  | Eq => if Z.even f then f else f + 1
  end.

(** In units of [2^-1074], the least positive double, the doubles that are
    not negative are the integers [m * 2^j] with [m < 2^53] and
    [0 <= j <= 2045].  For [0 <= y], the nearest of them, [j] being chosen
    so that the mantissa [m] has 53 bits: one that has 54 bits after
    rounding is [2^53], and [2^53 * 2^j] is the next power of two. *)
Definition nearestUnits (y : Q) : Z :=
  let j := Z.max 0 (Z.log2 (Qfloor y) - 52) in
  nearestEven (y / inject_Z (2 ^ j)) * 2 ^ j.

(** The double nearest to [q], for [0 <= q]; [Infinity] from [2^1024] on. *)
Definition nearestDouble (q : Q) : num :=
  let n := nearestUnits (q * inject_Z (2 ^ 1074)) in
  if 2 ^ 2098 <=? n then PosInf
  else Fin (Qred (inject_Z n / inject_Z (2 ^ 1074))).

(** The double an arithmetic operation returns when its exact result is
    [q]: IEEE 754 binary64, rounding to nearest, ties to even. *)
Definition round64 (q : Q) : num :=
  if Qle_bool 0 q then nearestDouble q else num_opp (nearestDouble (- q)).

(** [a + b] *)
Definition num_add (a b : num) : num :=
  match a, b with
  | NaN, _ | _, NaN => NaN
  | Fin x, Fin y => round64 (x + y)
  | PosInf, NegInf | NegInf, PosInf => NaN
  | PosInf, _ | _, PosInf => PosInf
  | NegInf, _ | _, NegInf => NegInf
  end.

(** [a - b] *)
Definition num_sub (a b : num) : num :=
  match a, b with
  | NaN, _ | _, NaN => NaN
  | Fin x, Fin y => round64 (x - y)
  | PosInf, PosInf | NegInf, NegInf => NaN
  | PosInf, _ | _, NegInf => PosInf
  | NegInf, _ | _, PosInf => NegInf
  end.

(** An infinity times the finite [x]: [NaN] when [x] is zero. *)
Definition num_scale (inf : num) (x : Q) : num :=
  match (x ?= 0)%Q with
  | Eq => NaN
  | Gt => inf
  | Lt => num_opp inf
  end.

(** [a * b] *)
Definition num_mul (a b : num) : num :=
  match a, b with
  | NaN, _ | _, NaN => NaN
  | Fin x, Fin y => round64 (x * y)
  | Fin x, _ => num_scale b x
  | _, Fin y => num_scale a y
  | PosInf, PosInf | NegInf, NegInf => PosInf
  | _, _ => NegInf
  end.

(** [Math.abs] *)
Definition Math_abs (a : num) : num :=
  match a with
  | NaN => NaN
  | NegInf | PosInf => PosInf
  | Fin x => Fin (Qabs x)
  end.

(** [a <= b]; false as soon as one side is [NaN]. *)
Definition num_leb (a b : num) : bool :=
  match a, b with
  | NaN, _ | _, NaN => false
  | NegInf, _ | _, PosInf => true
  | Fin x, Fin y => Qle_bool x y
  | _, _ => false
  end.

(** [a > b]; false as soon as one side is [NaN]. *)
Definition num_gtb (a b : num) : bool :=
  match a, b with
  | NaN, _ | _, NaN => false
  | _, _ => negb (num_leb a b)
  end.

(** [Math.max(a, b)] and [Math.min(a, b)]: [NaN] if either argument is. *)
Definition Math_max (a b : num) : num :=
  match a, b with
  | NaN, _ | _, NaN => NaN
  | _, _ => if num_leb a b then b else a
  end.

Definition Math_min (a b : num) : num :=
  match a, b with
  | NaN, _ | _, NaN => NaN
  | _, _ => if num_leb a b then a else b
  end.

(** [Math.round]: the nearest integer, a tie going up. *)
Definition Math_round (a : num) : num :=
  match a with
  | Fin x => Fin (inject_Z (Qfloor (x + (1 # 2))))
  | _ => a
  end.

(** Any value a JSON document, or a property read on one, can give. *)
#[local] Set Warnings "-register-all".
Inductive JsVal : Type :=
| JUndefined
| JNull
| JBool (b : bool)
| JNum (n : num)
| JStr (s : string)
| JArr (items : list JsVal)
| JObj (fields : list (string * JsVal)).

(** ToBoolean. *)
Definition truthy (v : JsVal) : bool :=
  match v with
  | JUndefined | JNull => false
  | JBool b => b
  | JNum NaN => false
  | JNum (Fin q) => negb (Qeq_bool q 0)
  | JNum _ => true
  | JStr s => negb (String.eqb s "")
  | JArr _ | JObj _ => true
  end.

(** [a || b] *)
Definition js_or (a b : JsVal) : JsVal := if truthy a then a else b.

(** What the platform provides and the repository does not define: the JSON
    parser ([None] is a [SyntaxError]), the numeric reading of a string and
    the default string conversion of arrays and objects. *)
Class Runtime : Type := {
  JSON_parse : string → option JsVal;
  StringToNumber : string → num;
  ObjectToString : JsVal → string
}.

(** ToNumber, as applied by [Math.max] to its arguments. *)
Definition ToNumber `{Runtime} (v : JsVal) : num :=
  match v with
  | JUndefined => NaN
  | JNull => Fin 0
  | JBool b => if b then Fin 1 else Fin 0
  | JNum n => n
  | JStr s => StringToNumber s
  | JArr _ | JObj _ => StringToNumber (ObjectToString v)
  end.

(** Exceptions.  Only the [name] of an error is ever inspected by the
    code, so the message text is not carried. *)
Record Exn : Type := MkExn { exn_name : string }.

Definition Error : Exn := MkExn "Error".
Definition TypeError : Exn := MkExn "TypeError".
Definition SyntaxError : Exn := MkExn "SyntaxError".

Inductive Res (A : Type) : Type :=
| Ok (a : A)
| Throw (e : Exn).
Arguments Ok {A} a.
Arguments Throw {A} e.

(** [v.k] for a property name that no prototype defines: a [TypeError] on
    [undefined] and [null], the own property of an object, [undefined]
    otherwise. *)
Definition get_prop (v : JsVal) (k : string) : Res JsVal :=
  match v with
  | JUndefined | JNull => Throw TypeError
  | JObj fields =>
      match List.find (λ kv, String.eqb (fst kv) k) fields with
      | Some kv => Ok (snd kv)
      | None => Ok JUndefined
      end
  | _ => Ok JUndefined
  end.

(** [v[0]].  Of a string it is a string of one character; nothing but its
    being a string is looked at, and the model keeps the first byte. *)
Definition get_index0 (v : JsVal) : Res JsVal :=
  match v with
  | JUndefined | JNull => Throw TypeError
  | JArr items => Ok (List.hd JUndefined items)
  | JStr (String c _) => Ok (JStr (String c ""))
  | JObj _ => get_prop v "0"
  | _ => Ok JUndefined
  end.

(** *** Strings *)

(** [s.includes(sub)] *)
Fixpoint includes (s sub : string) : bool :=
  String.prefix sub s ||
  match s with
  | EmptyString => false
  | String _ s' => includes s' sub
  end.

(** [s.split(sep)] for a one-character separator. *)
Fixpoint split (sep : ascii) (s : string) : list string :=
  match s with
  | EmptyString => [EmptyString]
  | String c s' =>
      if Ascii.eqb c sep then EmptyString :: split sep s'
      else match split sep s' with
           | h :: t => String c h :: t
           | [] => [String c EmptyString]
           end
  end.

(** What the platform provides on strings and the repository does not
    define: [s.toLowerCase()] and [s.trim()], which follow the Unicode
    tables.  Of the tables the model keeps one fact: no letter has a comma
    as its lower case. *)
Class Unicode : Type := {
  toLowerCase : string → string;
  trim : string → string;
  toLowerCase_comma :
    ∀ s, includes s "," = false → includes (toLowerCase s) "," = false
}.

(** A string is truthy when it is there and not empty. *)
Definition truthy_str (s : option string) : bool :=
  match s with
  | Some s => negb (String.eqb s "")
  | None => false
  end.

End Js.

Import Js.

(** ** The monad of asynchronous methods *)

Definition M (E S A : Type) : Type := E → S → Res A * S.

Definition ret {E S A} (a : A) : M E S A := λ _ s, (Ok a, s).

Definition bind {E S A B} (m : M E S A) (k : A → M E S B) : M E S B :=
  λ e s,
    match m e s with
    | (Ok a, s') => k a e s'
    | (Throw x, s') => (Throw x, s')
    end.

Definition throw {E S A} (x : Exn) : M E S A := λ _ s, (Throw x, s).

(** [try { m } catch (x) { h x }] *)
Definition try_catch {E S A} (m : M E S A) (h : Exn → M E S A) : M E S A :=
  λ e s,
    match m e s with
    | (Ok a, s') => (Ok a, s')
    | (Throw x, s') => h x e s'
    end.

(** [try { m } finally { f }], for a [finally] block that does not return:
    the outcome of [m] stands unless [f] itself throws. *)
Definition try_finally {E S A} (m : M E S A) (f : M E S unit) : M E S A :=
  λ e s,
    match m e s with
    | (r, s') =>
        match f e s' with
        | (Ok _, s'') => (r, s'')
        | (Throw x, s'') => (Throw x, s'')
        end
    end.

Definition ask {E S} : M E S E := λ e s, (Ok e, s).
Definition get {E S} : M E S S := λ _ s, (Ok s, s).
Definition modify {E S} (f : S → S) : M E S unit := λ _ s, (Ok tt, f s).
Definition lift_res {E S A} (r : Res A) : M E S A := λ _ s, (r, s).

Notation "'let*' x ':=' m 'in' k" := (bind m (λ x, k))
  (at level 10, x name, m at level 100, k at level 200, only parsing).
Notation "'do*' m 'in' k" := (bind m (λ _, k))
  (at level 10, m at level 100, k at level 200, only parsing).

(** ** The network *)

(** A response of [fetch]: its status and what [response.json()] settles
    to. *)
Record Response : Type := {
  status : Z;
  json : Res JsVal
}.

(** [response.ok] *)
Definition ok (response : Response) : bool :=
  ((200 <=? status response) && (status response <=? 299))%Z.

Inductive FetchOutcome : Type :=
| Rejects (e : Exn)
| Resolves (response : Response).

(** ** [js/ai-matching.js]: class [AIMatchingEngine] *)

Module AIMatchingEngine.

Record Profile : Type := {
  name : string;
  age : num;
  occupation : option string;
  bio : option string;
  interests : option (list string);
  location : option string
}.

(** The object both scoring paths return. *)
Record Compatibility : Type := {
  score : num;
  reason : JsVal;
  highlights : JsVal;
  concerns : JsVal
}.

(** The fields of the engine that change, with the browser's
    [localStorage]. *)
Record Engine : Type := {
  apiKey : option string;
  localStorage : gmap string string
}.

(** What the environment supplies during one call: the double that
    [Math.random()] returns and the outcome of the request to the chat
    endpoint. *)
Record Env : Type := {
  random : Q;
  fetch : FetchOutcome
}.

(** [Math.random()], in whatever state the page is. *)
Definition Math_random {S : Type} : M Env S Q := λ env s, (Ok (random env), s).

Definition setApiKey (key : string) : M Env Engine unit :=
  modify (λ this,
    {| apiKey := Some key;
       localStorage := <["openai_api_key" := key]> (localStorage this) |}).

Definition getApiKey : M Env Engine (option string) :=
  let* this := get in
  do* (if negb (truthy_str (apiKey this))
       then modify (λ this,
              {| apiKey := localStorage this !! "openai_api_key";
                 localStorage := localStorage this |})
       else ret tt) in
  let* this := get in
  ret (apiKey this).

Definition hasApiKey : M Env Engine bool :=
  let* key := getApiKey in
  ret (truthy_str key).

(** [callChatGPT(messages, temperature)].  The request body has no part in
    the control flow: the outcome of [fetch] is the environment's. *)
Definition callChatGPT : M Env Engine JsVal :=
  let* apiKey := getApiKey in
  if negb (truthy_str apiKey) then throw Error
  else
    try_catch
      (let* env := ask in
       match fetch env with
       | Rejects e => throw e
       | Resolves response =>
           if negb (ok response) then
             let* error := lift_res (json response) in
             do* lift_res (get_prop error "error") in
             throw Error
           else
             let* data := lift_res (json response) in
             let* choices := lift_res (get_prop data "choices") in
             let* choice := lift_res (get_index0 choices) in
             let* message := lift_res (get_prop choice "message") in
             lift_res (get_prop message "content")
       end)
      (λ error, throw error).

(** *** The fallback algorithm *)

(** Lines 131-135: the age bands. *)
Definition ageBand (ageDiff : num) : Z :=
  if num_leb ageDiff (Fin 5) then 15
  else if num_leb ageDiff (Fin 10) then 10
  else if num_leb ageDiff (Fin 15) then 5
  else -10.

(** [s.split(',')[1]?.trim()] *)
Definition region `{Unicode} (loc : string) : option string :=
  trim <$> (split "," loc !! 1%nat).

(** Lines 138-143: the location bonus. *)
Definition locationBonus `{Unicode} (location1 location2 : option string)
  : Z :=
  match location1, location2 with
  | Some l1, Some l2 =>
      if truthy_str location1 && truthy_str location2 then
        let loc1 := toLowerCase l1 in
        let loc2 := toLowerCase l2 in
        if includes loc1 "ny" && includes loc2 "ny" then 15
        else if bool_decide (region loc1 = region loc2) then 10
        else 0
      else 0
  | _, _ => 0
  end.

(** Lines 148-150: the entries of the first list found in the second. *)
Definition commonInterests `{Unicode} (interests1 interests2 : list string)
  : list string :=
  List.filter
    (λ i, existsb (λ j, String.eqb (toLowerCase j) (toLowerCase i)) interests2)
    interests1.

(** Lines 146-152: the interest bonus. *)
Definition interestBonus `{Unicode}
    (interests1 interests2 : option (list string)) : Z :=
  match interests1, interests2 with
  | Some i1, Some i2 =>
      if (0 <? length i1)%nat && (0 <? length i2)%nat then
        Z.min 20 (Z.of_nat (length (commonInterests i1 i2)) * 5)
      else 0
  | _, _ => 0
  end.

Definition keywords : list string :=
  ["travel"; "music"; "food"; "fitness"; "art"; "reading"; "movies"; "hiking";
   "cooking"].

(** Lines 155-165: the bio bonus. *)
Definition bioBonus `{Unicode} (bio1 bio2 : option string) : Z :=
  match bio1, bio2 with
  | Some b1, Some b2 =>
      if truthy_str bio1 && truthy_str bio2 then
        let bioMatches :=
          length (List.filter
                    (λ keyword, includes (toLowerCase b1) keyword &&
                                includes (toLowerCase b2) keyword)
                    keywords) in
        Z.min 10 (Z.of_nat bioMatches * 2)
      else 0
  | _, _ => 0
  end.

(** The value of [score] on reaching line 168, before the jitter. *)
Definition baseScore `{Unicode} (profile1 profile2 : Profile) : Z :=
  let score := 50 in
  let ageDiff := Math_abs (num_sub (age profile1) (age profile2)) in
  let score := score + ageBand ageDiff in
  let score := score + locationBonus (location profile1) (location profile2) in
  let score := score + interestBonus (interests profile1) (interests profile2) in
  let score := score + bioBonus (bio profile1) (bio profile2) in
  score.

(** [Math.random() * 10 - 5], [r] being the value of [Math.random()]. *)
Definition jitter (r : Q) : num :=
  num_sub (num_mul (Fin r) (Fin 10)) (Fin 5).

(** The value of [score] after line 168, [r] being the value of
    [Math.random()]. *)
Definition jitteredScore `{Unicode} (r : Q) (profile1 profile2 : Profile)
  : num :=
  num_add (Fin (inject_Z (baseScore profile1 profile2))) (jitter r).

(** [Math.min(100, Math.max(0, x))] *)
Definition clamp (x : num) : num := Math_min (Fin 100) (Math_max (Fin 0) x).

(** The object [calculateSimpleCompatibility] returns when [Math.random()]
    gives [r]. *)
Definition simpleCompatibility `{Unicode} (r : Q)
    (profile1 profile2 : Profile) : Compatibility :=
  let ageDiff := Math_abs (num_sub (age profile1) (age profile2)) in
  {| score := clamp (Math_round (jitteredScore r profile1 profile2));
     reason := JStr "Compatibility based on age, location, and profile details";
     highlights := JArr [JStr "Good age compatibility"; JStr "Similar location"];
     concerns := if num_gtb ageDiff (Fin 15)
                 then JArr [JStr "Significant age difference"]
                 else JArr [] |}.

(** Lines 127-176.  The method touches no field and no store: it runs in
    any state [S]. *)
Definition calculateSimpleCompatibility `{Unicode} {S : Type}
    (profile1 profile2 : Profile) : M Env S Compatibility :=
  let* r := Math_random in
  ret (simpleCompatibility r profile1 profile2).

(** *** The LLM path *)

(** The suffix of [s] that starts at its first opening brace. *)
Fixpoint fromFirstBrace (s : string) : option string :=
  match s with
  | EmptyString => None
  | String c s' => if Ascii.eqb c "{" then Some s else fromFirstBrace s'
  end.

(** The longest prefix of [s] that ends in a closing brace. *)
Fixpoint toLastBrace (s : string) : option string :=
  match s with
  | EmptyString => None
  | String c s' =>
      match toLastBrace s' with
      | Some t => Some (String c t)
      | None => if Ascii.eqb c "}" then Some (String c EmptyString) else None
      end
  end.

(** [s.match(/\{[\s\S]*\}/)], giving the matched text: from the first
    opening brace to the last closing brace after it. *)
Definition matchObject (s : string) : option string :=
  match fromFirstBrace s with
  | Some (String c rest) => String c <$> toLastBrace rest
  | _ => None
  end.

(** [response.match(...)] on whatever [callChatGPT] returned: only a string
    has the method. *)
Definition responseMatch (response : JsVal) : Res (option string) :=
  match response with
  | JStr s => Ok (matchObject s)
  | _ => Throw TypeError
  end.

Definition calculateCompatibility `{Runtime} `{Unicode}
    (profile1 profile2 : Profile) : M Env Engine Compatibility :=
  let* hasKey := hasApiKey in
  if negb hasKey then calculateSimpleCompatibility profile1 profile2
  else
    try_catch
      (let* response := callChatGPT in
       let* jsonMatch := lift_res (responseMatch response) in
       match jsonMatch with
       | Some text =>
           match JSON_parse text with
           | None => throw SyntaxError
           | Some result =>
               let* result_score := lift_res (get_prop result "score") in
               let* result_reason := lift_res (get_prop result "reason") in
               let* result_highlights := lift_res (get_prop result "highlights") in
               let* result_concerns := lift_res (get_prop result "concerns") in
               ret {| score := clamp (ToNumber result_score);
                      reason := result_reason;
                      highlights := js_or result_highlights (JArr []);
                      concerns := js_or result_concerns (JArr []) |}
           end
       | None => throw Error
       end)
      (λ error, calculateSimpleCompatibility profile1 profile2).

(** *** Suggestions and insights *)

(** The suffix of [s] that starts at its first [open]. *)
Fixpoint fromFirst (open : ascii) (s : string) : option string :=
  match s with
  | EmptyString => None
  | String c s' => if Ascii.eqb c open then Some s else fromFirst open s'
  end.

(** The longest prefix of [s] that ends in [close]. *)
Fixpoint toLast (close : ascii) (s : string) : option string :=
  match s with
  | EmptyString => None
  | String c s' =>
      match toLast close s' with
      | Some t => Some (String c t)
      | None => if Ascii.eqb c close then Some (String c EmptyString) else None
      end
  end.

(** [s.match(/\[[\s\S]*\]/)], giving the matched text: from the first
    opening bracket to the last closing bracket after it. *)
Definition matchArray (s : string) : option string :=
  match fromFirst "[" s with
  | Some (String c rest) => String c <$> toLast "]" rest
  | _ => None
  end.

(** [response.match(/\[[\s\S]*\]/)] on whatever [callChatGPT] returned. *)
Definition responseMatchArray (response : JsVal) : Res (option string) :=
  match response with
  | JStr s => Ok (matchArray s)
  | _ => Throw TypeError
  end.

(** Lines 224-230. *)
Definition getGenericConversationStarters : JsVal :=
  JArr
    [JStr "Hey! I saw we both like similar things. What's been keeping you busy lately?";
     JStr "Hi! Your profile caught my eye. Tell me more about yourself!";
     JStr "Hey there! How's your day going?"].

(** Lines 179-222.  The prompt is built from the two profiles inside the
    [try]; it has no part in the control flow. *)
Definition generateConversationStarters `{Runtime}
    (userProfile matchProfile : Profile) : M Env Engine JsVal :=
  let* hasKey := hasApiKey in
  if negb hasKey then ret getGenericConversationStarters
  else
    try_catch
      (let* response := callChatGPT in
       let* jsonMatch := lift_res (responseMatchArray response) in
       match jsonMatch with
       | Some text =>
           match JSON_parse text with
           | None => throw SyntaxError
           | Some starters => ret starters
           end
       | None => ret getGenericConversationStarters
       end)
      (λ error, ret getGenericConversationStarters).

(** Lines 273-279. *)
Definition getGenericBioSuggestions : JsVal :=
  JArr
    [JStr "I love exploring new places and trying new foods. Always up for an adventure! Let's grab coffee and see where it goes.";
     JStr "Passionate about my work and my hobbies. Looking for someone to share new experiences with.";
     JStr "Life's too short to be boring! I enjoy good conversations, great food, and even better company."].

(** What [generateBioSuggestions] reads of the user. *)
Record UserInfo : Type := {
  info_name : string;
  info_age : num;
  info_occupation : option string;
  info_interests : option (list string)
}.

(** Lines 233-271. *)
Definition generateBioSuggestions `{Runtime} (userInfo : UserInfo)
  : M Env Engine JsVal :=
  let* hasKey := hasApiKey in
  if negb hasKey then ret getGenericBioSuggestions
  else
    try_catch
      (let* response := callChatGPT in
       let* jsonMatch := lift_res (responseMatchArray response) in
       match jsonMatch with
       | Some text =>
           match JSON_parse text with
           | None => throw SyntaxError
           | Some suggestions => ret suggestions
           end
       | None => ret getGenericBioSuggestions
       end)
      (λ error, ret getGenericBioSuggestions).

(** An interaction, as the pattern analysis reads it: its [type]. *)
Record Interaction : Type := { type : string }.

(** [interactions.filter(i => i.type === t).length] *)
Definition countType (t : string) (interactions : list Interaction) : nat :=
  length (List.filter (λ i, String.eqb (type i) t) interactions).

(** Lines 328-350.  [matches] enters through its length alone. *)
Definition getSimplePatternAnalysis {Match : Type}
    (interactions : list Interaction) (matches : list Match) : list string :=
  let likeCount := countType "like" interactions in
  let passCount := countType "pass" interactions in
  let insights := [] in
  let insights :=
    if (passCount * 2 <? likeCount)%nat then
      insights ++ ["You're quite open to connections! Consider being more selective to improve match quality."]
    else if (likeCount * 2 <? passCount)%nat then
      insights ++ ["You have high standards! That's great, but try being open to unexpected connections."]
    else insights in
  let insights :=
    if (0 <? length matches)%nat then
      insights ++
        ["You have " +:+ pretty (length matches) +:+ " match" +:+
         (if (1 <? length matches)%nat then "es" else "") +:+
         "! Don't forget to start conversations."]
    else insights in
  let insights :=
    if (likeCount <? 5)%nat then
      insights ++ ["Keep exploring profiles to find great matches!"]
    else insights in
  insights ++
    ["Complete your profile with photos and interests to attract better matches."].

(** The insights as the JavaScript array the method returns. *)
Definition insightsArray (insights : list string) : JsVal :=
  JArr (JStr <$> insights).

(** Lines 282-326.  The counts of lines 288-290 only feed the prompt. *)
Definition analyzeUserPatterns `{Runtime} {Match : Type}
    (interactions : list Interaction) (matches : list Match)
  : M Env Engine JsVal :=
  let* hasKey := hasApiKey in
  if negb hasKey then
    ret (insightsArray (getSimplePatternAnalysis interactions matches))
  else
    try_catch
      (let* response := callChatGPT in
       let* jsonMatch := lift_res (responseMatchArray response) in
       match jsonMatch with
       | Some text =>
           match JSON_parse text with
           | None => throw SyntaxError
           | Some insights => ret insights
           end
       | None =>
           ret (insightsArray (getSimplePatternAnalysis interactions matches))
       end)
      (λ error,
         ret (insightsArray (getSimplePatternAnalysis interactions matches))).

End AIMatchingEngine.

(** ** [js/auth-backend.js]: class [DatingAppDB] *)

Module DatingAppDB.

(** A record of the [likes] store, without its key. *)
Record Like : Type := {
  fromUserId : Z;
  toUserId : Z;
  type : string;
  likedAt : string
}.

(** A record of the [messages] store, without its key.  [timestamp] is the
    instant [new Date(m.timestamp)] denotes, in milliseconds. *)
Record Message : Type := {
  matchId : Z;
  senderId : Z;
  text : string;
  timestamp : Z;
  read : bool
}.

(** The two object stores the methods below open, keyed by [id]. *)
Record DB : Type := {
  likes : gmap Z Like;
  messages : gmap Z Message
}.

(** The order of the primary keys. *)
Definition byKey {V : Type} (a b : Z * V) : Prop := (fst a ≤ fst b)%Z.

#[global] Instance byKey_dec {V : Type} : RelDecision (@byKey V) :=
  λ a b, decide (fst a ≤ fst b)%Z.

(** The comparator of line 698, [new Date(a.timestamp) - new
    Date(b.timestamp)], puts [a] no later than [b] when this holds. *)
Definition byTime (a b : Z * Message) : Prop :=
  (timestamp (snd a) ≤ timestamp (snd b))%Z.

#[global] Instance byTime_dec : RelDecision byTime :=
  λ a b, decide (timestamp (snd a) ≤ timestamp (snd b))%Z.

(** [store.getAll()]: every record, in ascending key order. *)
Definition getAll {V : Type} (store : gmap Z V) : list (Z * V) :=
  merge_sort byKey (map_to_list store).

(** [a && b] on two results of [find]. *)
Definition js_and {A : Type} (a b : option A) : option A :=
  match a with
  | Some _ => b
  | None => None
  end.

(** Lines 639-653.  The promise resolves to [like1 && like2]: a record of
    the store, or [undefined]. *)
Definition checkMutualLike (user1Id user2Id : Z)
  : M unit DB (option (Z * Like)) :=
  let* db := get in
  let likes := getAll (likes db) in
  let like1 :=
    List.find (λ l, (fromUserId (snd l) =? user1Id) &&
                    (toUserId (snd l) =? user2Id) &&
                    String.eqb (type (snd l)) "like") likes in
  let like2 :=
    List.find (λ l, (fromUserId (snd l) =? user2Id) &&
                    (toUserId (snd l) =? user1Id) &&
                    String.eqb (type (snd l)) "like") likes in
  ret (js_and like1 like2).

(** Lines 690-704: the records of the [matchId] index for one match, sorted
    by time. *)
Definition getMatchMessages (matchId' : Z) : M unit DB (list (Z * Message)) :=
  let* db := get in
  let messages :=
    List.filter (λ m, matchId (snd m) =? matchId') (getAll (messages db)) in
  ret (merge_sort byTime messages).

(** [message.read = true] *)
Definition setRead (message : Z * Message) : Z * Message :=
  (fst message,
   {| matchId := matchId (snd message);
      senderId := senderId (snd message);
      text := text (snd message);
      timestamp := timestamp (snd message);
      read := true |}).

(** [store.put(message)] on the [messages] store: the record replaces the
    one stored under its [id]. *)
Definition put (message : Z * Message) : M unit DB unit :=
  modify (λ db,
    {| likes := likes db;
       messages := <[fst message := snd message]> (messages db) |}).

(** [Promise.all(list.map(f))] for requests issued in list order. *)
Fixpoint forAll {E S A B : Type} (f : A → M E S B) (l : list A)
  : M E S (list B) :=
  match l with
  | [] => ret []
  | x :: l' =>
      let* y := f x in
      let* ys := forAll f l' in
      ret (y :: ys)
  end.

(** Lines 706-721. *)
Definition markMessagesAsRead (matchId' userId : Z) : M unit DB (list unit) :=
  let* messages := getMatchMessages matchId' in
  let unreadMessages :=
    List.filter (λ m, negb (senderId (snd m) =? userId) && negb (read (snd m)))
                messages in
  forAll (λ message, put (setRead message)) unreadMessages.

(** *** Adding records *)

(** What the database and the clock supply to one [store.add]: the key its
    generator yields, and the time, as the ISO text
    [new Date().toISOString()] gives and as the instant it denotes. *)
Record AddEnv : Type := {
  generated : Z;
  nowISO : string;
  nowInstant : Z
}.

Definition ConstraintError : Exn := MkExn "ConstraintError".

(** Lines 618-637.  [store.add] fails when the key is taken. *)
Definition createLike (fromUserId' toUserId' : Z) (type' : string)
  : M AddEnv DB (Z * Like) :=
  let* env := ask in
  let like :=
    {| fromUserId := fromUserId'; toUserId := toUserId'; type := type';
       likedAt := nowISO env |} in
  let* db := get in
  match likes db !! generated env with
  | Some _ => throw ConstraintError
  | None =>
      do* modify (λ db,
            {| likes := <[generated env := like]> (likes db);
               messages := messages db |}) in
      ret (generated env, like)
  end.

(** Lines 668-688. *)
Definition createMessage (matchId' senderId' : Z) (text' : string)
  : M AddEnv DB (Z * Message) :=
  let* env := ask in
  let message :=
    {| matchId := matchId'; senderId := senderId'; text := text';
       timestamp := nowInstant env; read := false |} in
  let* db := get in
  match messages db !! generated env with
  | Some _ => throw ConstraintError
  | None =>
      do* modify (λ db,
            {| likes := likes db;
               messages := <[generated env := message]> (messages db) |}) in
      ret (generated env, message)
  end.

(** Lines 655-665: the records of the [fromUserId] index for one user. *)
Definition getUserLikes (userId : Z) : M unit DB (list (Z * Like)) :=
  let* db := get in
  ret (List.filter (λ l, fromUserId (snd l) =? userId) (getAll (likes db))).

(** *** The [matches] store *)

Module Matches.

Record Match : Type := {
  user1Id : Z;
  user2Id : Z;
  timestamp : string;
  lastMessage : JsVal
}.

(** Lines 552-571. *)
Definition createMatch (user1Id' user2Id' : Z)
  : M AddEnv (gmap Z Match) (Z * Match) :=
  let* env := ask in
  let match_ :=
    {| user1Id := user1Id'; user2Id := user2Id'; timestamp := nowISO env;
       lastMessage := JNull |} in
  let* store := get in
  match store !! generated env with
  | Some _ => throw ConstraintError
  | None =>
      do* modify (λ store : gmap Z Match, <[generated env := match_]> store) in
      ret (generated env, match_)
  end.

(** Lines 573-587. *)
Definition getUserMatches (userId : Z)
  : M unit (gmap Z Match) (list (Z * Match)) :=
  let* store := get in
  ret (List.filter
         (λ m, (user1Id (snd m) =? userId) || (user2Id (snd m) =? userId))
         (getAll store)).

(** Lines 589-598: [undefined] when no record has the key. *)
Definition getMatchById (matchId : Z)
  : M unit (gmap Z Match) (option (Z * Match)) :=
  let* store := get in
  ret ((λ m, (matchId, m)) <$> store !! matchId).

End Matches.

(** *** The [notifications] store *)

Module Notifications.

(** A notification, without its key.  [timestamp] is the instant
    [new Date(n.timestamp)] denotes. *)
Record Notification : Type := {
  userId : Z;
  type : string;
  message : string;
  data : JsVal;
  timestamp : Z;
  read : bool
}.

(** Lines 724-745. *)
Definition createNotification (userId' : Z) (type' message' : string)
    (data' : JsVal) : M AddEnv (gmap Z Notification) (Z * Notification) :=
  let* env := ask in
  let notification :=
    {| userId := userId'; type := type'; message := message'; data := data';
       timestamp := nowInstant env; read := false |} in
  let* store := get in
  match store !! generated env with
  | Some _ => throw ConstraintError
  | None =>
      do* modify (λ store : gmap Z Notification,
            <[generated env := notification]> store) in
      ret (generated env, notification)
  end.

(** The comparator of line 756, [new Date(b.timestamp) - new
    Date(a.timestamp)], puts [a] no later than [b] in the array when [a] is
    no older. *)
Definition newestFirst (a b : Z * Notification) : Prop :=
  (timestamp (snd b) ≤ timestamp (snd a))%Z.

#[global] Instance newestFirst_dec : RelDecision newestFirst :=
  λ a b, decide (timestamp (snd b) ≤ timestamp (snd a))%Z.

(** Lines 747-761. *)
Definition getUserNotifications (userId' : Z)
  : M unit (gmap Z Notification) (list (Z * Notification)) :=
  let* store := get in
  let notifications :=
    List.filter (λ n, userId (snd n) =? userId') (getAll store) in
  ret (merge_sort newestFirst notifications).

(** [notification.read = true] *)
Definition setRead (notification : Notification) : Notification :=
  {| userId := userId notification; type := type notification;
     message := message notification; data := data notification;
     timestamp := timestamp notification; read := true |}.

(** Lines 763-782. *)
Definition markNotificationAsRead (notificationId : Z)
  : M unit (gmap Z Notification) (Z * Notification) :=
  let* store := get in
  match store !! notificationId with
  | Some notification =>
      let notification := setRead notification in
      do* modify (λ store : gmap Z Notification,
            <[notificationId := notification]> store) in
      ret (notificationId, notification)
  | None => throw Error
  end.

End Notifications.

(** *** The [users] store *)

(** [parseInt], which the platform provides. *)
Class Parsing : Type := { parseInt : JsVal → num }.

Module Users.

(** A user, without its key. *)
Record User : Type := {
  name : string;
  email : string;
  password : string;
  age : num;
  gender : string;
  isAdmin : JsVal;
  createdAt : string
}.

(** The argument of [createUser]. *)
Record UserData : Type := {
  data_name : string;
  data_email : string;
  data_password : string;
  data_age : JsVal;
  data_gender : string;
  data_isAdmin : JsVal
}.

(** [index.get(email)] on the [email] index: the record with that email,
    the one of least key should there be several. *)
Definition getByEmail (store : gmap Z User) (email' : string)
  : option (Z * User) :=
  List.find (λ u, String.eqb (email (snd u)) email') (getAll store).

(** Lines 417-451. *)
Definition createUser `{Parsing} (userData : UserData)
  : M AddEnv (gmap Z User) (Z * User) :=
  let* store := get in
  let existingUser := getByEmail store (data_email userData) in
  match existingUser with
  | Some _ => throw Error
  | None =>
      let* env := ask in
      let user :=
        {| name := data_name userData;
           email := data_email userData;
           password := data_password userData;
           age := parseInt (data_age userData);
           gender := data_gender userData;
           isAdmin := js_or (data_isAdmin userData) (JBool false);
           createdAt := nowISO env |} in
      match store !! generated env with
      | Some _ => throw ConstraintError
      | None =>
          do* modify (λ store : gmap Z User, <[generated env := user]> store) in
          ret (generated env, user)
      end
  end.

(** Lines 453-472. *)
Definition verifyUser (email' password' : string)
  : M unit (gmap Z User) (Z * User) :=
  let* store := get in
  match getByEmail store email' with
  | None => throw Error
  | Some user =>
      if negb (String.eqb (password (snd user)) password') then throw Error
      else ret user
  end.

(** Lines 474-483: [undefined] when no record has the key. *)
Definition getUserById (userId : Z)
  : M unit (gmap Z User) (option (Z * User)) :=
  let* store := get in
  ret ((λ u, (userId, u)) <$> store !! userId).

End Users.

End DatingAppDB.

(** ** [js/auth-backend.js]: class [BackendAPI] *)

Module BackendAPI.

(** The fields of the client that change, with the browser's
    [localStorage]. *)
Record Api : Type := {
  token : JsVal;
  currentUserId : JsVal;
  localStorage : gmap string string
}.

(** [localStorage.getItem(k)] *)
Definition getItem (storage : gmap string string) (k : string) : JsVal :=
  match storage !! k with
  | Some v => JStr v
  | None => JNull
  end.

(** The constructor, lines 1009-1013. *)
Definition new (storage : gmap string string) : Api :=
  {| token := getItem storage "auth_token";
     currentUserId := getItem storage "user_id";
     localStorage := storage |}.

(** [localStorage.removeItem(k)] *)
Definition removeItem (k : string) : M FetchOutcome Api unit :=
  modify (λ this,
    {| token := token this;
       currentUserId := currentUserId this;
       localStorage := delete k (localStorage this) |}).

(** [apiCall(endpoint, method, data)], lines 1026-1100.  The environment is
    the outcome of the one [fetch].  Lines 1041-1061 only compute the text of
    the error, inside a [try]/[catch] of their own. *)
Definition apiCall (endpoint method : string) : M FetchOutcome Api JsVal :=
  try_catch
    (let* outcome := ask in
     match outcome with
     | Rejects e => throw e
     | Resolves response =>
         if negb (ok response) then
           do* (if status response =? 401 then
                  let isAuthEndpoint :=
                    String.eqb endpoint "/auth/login" ||
                    String.eqb endpoint "/auth/register" in
                  if negb isAuthEndpoint then
                    do* removeItem "auth_token" in
                    removeItem "user_id"
                  else ret tt
                else ret tt) in
           throw Error
         else lift_res (json response)
     end)
    (λ error,
       if String.eqb (exn_name error) "TypeError" then throw Error
       else throw error).

(** Lines 1146-1156. *)
Definition logout : M FetchOutcome Api unit :=
  try_finally
    (do* apiCall "/auth/logout" "POST" in ret tt)
    (do* modify (λ this,
           {| token := JNull;
              currentUserId := currentUserId this;
              localStorage := localStorage this |}) in
     do* modify (λ this,
           {| token := token this;
              currentUserId := JNull;
              localStorage := localStorage this |}) in
     do* removeItem "auth_token" in
     removeItem "user_id").

(** Lines 1158-1160. *)
Definition isLoggedIn (this : Api) : bool :=
  truthy (token this) && truthy (currentUserId this).

(** *** Login and registration *)

(** The text of a number, which the platform provides. *)
Class Printing : Type := { NumberToString : num → string }.

(** ToString, as applied by [localStorage.setItem] to the value. *)
Definition ToString `{Runtime} `{Printing} (v : JsVal) : string :=
  match v with
  | JUndefined => "undefined"
  | JNull => "null"
  | JBool b => if b then "true" else "false"
  | JNum n => NumberToString n
  | JStr s => s
  | JArr _ | JObj _ => ObjectToString v
  end.

(** [localStorage.setItem(k, v)] *)
Definition setItem `{Runtime} `{Printing} (k : string) (v : JsVal)
  : M FetchOutcome Api unit :=
  modify (λ this,
    {| token := token this;
       currentUserId := currentUserId this;
       localStorage := <[k := ToString v]> (localStorage this) |}).

(** Lines 1115-1120 and 1133-1138: the token and the user id of the reply
    go to the two fields and to [localStorage]. *)
Definition storeSession `{Runtime} `{Printing} (result : JsVal)
  : M FetchOutcome Api unit :=
  let* access_token := lift_res (get_prop result "access_token") in
  do* modify (λ this,
        {| token := access_token;
           currentUserId := currentUserId this;
           localStorage := localStorage this |}) in
  let* user_id := lift_res (get_prop result "user_id") in
  do* modify (λ this,
        {| token := token this;
           currentUserId := user_id;
           localStorage := localStorage this |}) in
  let* this := get in
  do* setItem "auth_token" (token this) in
  let* this := get in
  setItem "user_id" (currentUserId this).

(** Lines 1107-1126.  The payload has no part in the control flow. *)
Definition register `{Runtime} `{Printing} : M FetchOutcome Api JsVal :=
  try_catch
    (let* result := apiCall "/auth/register" "POST" in
     do* storeSession result in
     ret result)
    (λ error, throw error).

(** Lines 1128-1144. *)
Definition login `{Runtime} `{Printing} : M FetchOutcome Api JsVal :=
  try_catch
    (let* result := apiCall "/auth/login" "POST" in
     do* storeSession result in
     ret result)
    (λ error, throw error).

(** Lines 1170-1172. *)
Definition getMyProfile : M FetchOutcome Api JsVal :=
  apiCall "/profiles/me" "GET".

(** *** The address of the API *)

(** [s.replace(/\/+$/, '')]: [s] without its trailing slashes. *)
Fixpoint stripTrailingSlashes (s : string) : string :=
  match s with
  | EmptyString => EmptyString
  | String c s' =>
      match stripTrailingSlashes s' with
      | EmptyString => if Ascii.eqb c "/" then EmptyString
                       else String c EmptyString
      | t => String c t
      end
  end.

(** [s.endsWith(suffix)] *)
Definition endsWith (s suffix : string) : bool :=
  String.prefix (String.rev suffix) (String.rev s).

Definition isDigit (c : ascii) : bool :=
  let n := nat_of_ascii c in ((48 <=? n) && (n <=? 57))%nat.

(** [/^172\.(1[6-9]|2\d|3[0-1])\./.test(hostname)] *)
Definition test172 (hostname : string) : bool :=
  match hostname with
  | String "1" (String "7" (String "2" (String "."
      (String a (String b (String "." _)))))) =>
      let d := nat_of_ascii b in
      (Ascii.eqb a "1" && (54 <=? d) && (d <=? 57))%nat ||
      (Ascii.eqb a "2" && isDigit b) ||
      (Ascii.eqb a "3" && (48 <=? d) && (d <=? 49))%nat
  | _ => false
  end.

(** What [resolveApiBaseUrl] reads of the page: the [api] parameter of the
    query, the [loveai_api_base_url] entry of [localStorage], the global
    [LOVEAI_API_BASE_URL] ([None] when absent), and the location. *)
Record Page : Type := {
  queryOverride : option string;
  storageOverride : option string;
  globalOverride : option string;
  hostname : string;
  origin : string
}.

(** [a || b] on two strings that may be absent. *)
Definition or_str (a b : option string) : option string :=
  if truthy_str a then a else b.

Definition DEFAULT_API_PORT : string := "8000".

(** Lines 980-1006. *)
Definition resolveApiBaseUrl (page : Page) : string :=
  let override :=
    or_str (or_str (globalOverride page) (storageOverride page))
           (queryOverride page) in
  if truthy_str override then stripTrailingSlashes (default "" override)
  else if negb (truthy_str (Some (hostname page))) then
    "http://localhost:" +:+ DEFAULT_API_PORT
  else
    let isPrivateNetwork :=
      String.prefix "10." (hostname page) ||
      String.prefix "192.168." (hostname page) ||
      test172 (hostname page) in
    let isLocalHost :=
      String.eqb (hostname page) "localhost" ||
      String.eqb (hostname page) "127.0.0.1" ||
      endsWith (hostname page) ".local" in
    if isLocalHost || isPrivateNetwork then
      "http://" +:+ hostname page +:+ ":" +:+ DEFAULT_API_PORT
    else origin page.

End BackendAPI.

(** ** Vocabulary of the statements *)

Import AIMatchingEngine.

(** [Math.abs(profile1.age - profile2.age)] *)
Definition ageGap (profile1 profile2 : Profile) : num :=
  Math_abs (num_sub (age profile1) (age profile2)).

(** Two profiles that agree on every attribute but the age. *)
Definition sameButAge (p q : Profile) : Prop :=
  name p = name q ∧ occupation p = occupation q ∧ bio p = bio q ∧
  interests p = interests q ∧ location p = location q.

(** A profile with no location, no interests and no bio. *)
Definition bare (p : Profile) : Prop :=
  truthy_str (location p) = false ∧
  (interests p = None ∨ interests p = Some []) ∧
  truthy_str (bio p) = false.

Definition withoutInterests (p : Profile) : Profile :=
  {| name := name p; age := age p; occupation := occupation p; bio := bio p;
     interests := None; location := location p |}.

(** Two strings that differ at most in letter case. *)
Definition equalIgnoringCase `{Unicode} (a b : string) : Prop :=
  toLowerCase a = toLowerCase b.

#[global] Instance equalIgnoringCase_dec `{Unicode}
  : RelDecision equalIgnoringCase :=
  λ a b, decide (toLowerCase a = toLowerCase b).

(** The number of entries of [l1] that equal, case aside, some entry of
    [l2]. *)
Definition countCommon `{Unicode} (l1 l2 : list string) : nat :=
  length (filter (λ i, Exists (equalIgnoringCase i) l2) l1).

(** No two entries of the interests list are equal up to letter case. *)
Definition distinctInterests `{Unicode} (p : Profile) : Prop :=
  match interests p with
  | Some l => NoDup (toLowerCase <$> l)
  | None => True
  end.

(** The engine once [getApiKey] has run: the key read from [localStorage]
    when the field held none. *)
Definition cached (this : Engine) : Engine :=
  {| apiKey := if truthy_str (apiKey this) then apiKey this
               else localStorage this !! "openai_api_key";
     localStorage := localStorage this |}.

(** The ways in which the LLM path gives up, for a call made in the
    environment [env] on the engine [this]. *)
Inductive fallbackCase `{Runtime} (env : Env) (this : Engine) : Prop :=
| noApiKey :
    fst (hasApiKey env this) = Ok false → fallbackCase env this
| transportError (e : Exn) :
    fetch env = Rejects e → fallbackCase env this
| callThrows (e : Exn) :
    fst (callChatGPT env this) = Throw e → fallbackCase env this
| notText (response : JsVal) (e : Exn) :
    fst (callChatGPT env this) = Ok response →
    responseMatch response = Throw e → fallbackCase env this
| noJsonObject (response : JsVal) :
    fst (callChatGPT env this) = Ok response →
    responseMatch response = Ok None → fallbackCase env this
| parseFails (response : JsVal) (text : string) :
    fst (callChatGPT env this) = Ok response →
    responseMatch response = Ok (Some text) →
    JSON_parse text = None → fallbackCase env this.

(** A string without a comma. *)
Definition commaFree (s : string) : Prop := includes s "," = false.

(** The bonus the bands give to an age gap [d]. *)
Definition inBand (d : Q) (b : Z) : Prop :=
  ((d <= 5)%Q ∧ b = 15) ∨
  ((5 < d)%Q ∧ (d <= 10)%Q ∧ b = 10) ∨
  ((10 < d)%Q ∧ (d <= 15)%Q ∧ b = 5) ∨
  ((15 < d)%Q ∧ b = -10).

Import DatingAppDB.

(** The store holds a record of type ['like'] from [u] toward [v]. *)
Definition likesToward (store : gmap Z Like) (u v : Z) : Prop :=
  ∃ (id : Z) (l : Like),
    store !! id = Some l ∧ fromUserId l = u ∧ toUserId l = v ∧ type l = "like".

(** A message of the match [matchId'] that [userId] did not send and has
    not read. *)
Definition unreadBy (matchId' userId : Z) (m : Message) : Prop :=
  matchId m = matchId' ∧ senderId m ≠ userId ∧ read m = false.

#[global] Instance unreadBy_dec (matchId' userId : Z) (m : Message) :
  Decision (unreadBy matchId' userId m) :=
  and_dec _ (and_dec _ _).

(** The same message, read. *)
Definition asRead (m : Message) : Message :=
  {| matchId := matchId m; senderId := senderId m; text := text m;
     timestamp := timestamp m; read := true |}.

(** What [markMessagesAsRead(matchId', userId)] is to do to a message. *)
Definition marked (matchId' userId : Z) (m : Message) : Message :=
  if decide (unreadBy matchId' userId m) then asRead m else m.

(** No two users of the store have the same email: what the unique
    [email] index of line 369 enforces. *)
Definition uniqueEmails (store : gmap Z Users.User) : Prop :=
  ∀ id1 id2 u1 u2,
    store !! id1 = Some u1 → store !! id2 = Some u2 →
    Users.email u1 = Users.email u2 → id1 = id2.

(** The store holds a user with this email. *)
Definition registered (store : gmap Z Users.User) (email : string) : Prop :=
  ∃ id u, store !! id = Some u ∧ Users.email u = email.

(** [endpoint === '/auth/login' || endpoint === '/auth/register'] *)
Definition isAuthEndpoint (endpoint : string) : bool :=
  String.eqb endpoint "/auth/login" || String.eqb endpoint "/auth/register".

(** The answer that makes [apiCall] drop the stored session: a 401 on an
    endpoint other than login and registration. *)
Definition sessionExpired (endpoint : string) (outcome : FetchOutcome) : bool :=
  match outcome with
  | Resolves response =>
      (status response =? 401) && negb (isAuthEndpoint endpoint)
  | Rejects _ => false
  end.

(** The error [apiCall] rethrows: a [TypeError] becomes a plain [Error]. *)
Definition rethrown (e : Exn) : Exn :=
  if String.eqb (exn_name e) "TypeError" then Error else e.

(** The first of the candidates that is a non-empty string. *)
Definition firstNonEmpty (candidates : list (option string)) : option string :=
  mjoin (List.find truthy_str candidates).

(** [n] slashes. *)
Fixpoint slashes (n : nat) : string :=
  match n with
  | O => EmptyString
  | S n' => String "/" (slashes n')
  end.

(** The number two decimal digits denote. *)
Definition twoDigits (a b : ascii) : nat :=
  10 * (nat_of_ascii a - 48) + (nat_of_ascii b - 48).

(** ** Sample data *)

(** The platform on the ASCII range, in which the sample data lies: on
    strings of that range [toLowerCase] maps [A]-[Z] to [a]-[z], and
    [trim] drops the characters 9 to 13 and the space at both ends. *)
Definition lower_ascii (c : ascii) : ascii :=
  let n := nat_of_ascii c in
  if ((65 <=? n) && (n <=? 90))%nat then ascii_of_nat (n + 32) else c.

Fixpoint asciiToLowerCase (s : string) : string :=
  match s with
  | EmptyString => EmptyString
  | String c s' => String (lower_ascii c) (asciiToLowerCase s')
  end.

Definition is_white (c : ascii) : bool :=
  let n := nat_of_ascii c in
  (((9 <=? n) && (n <=? 13)) || (n =? 32))%nat.

Fixpoint trimStart (s : string) : string :=
  match s with
  | EmptyString => EmptyString
  | String c s' => if is_white c then trimStart s' else s
  end.

Definition asciiTrim (s : string) : string :=
  String.rev (trimStart (String.rev (trimStart s))).

Lemma lower_ascii_comma (c : ascii) :
  Ascii.eqb (lower_ascii c) "," = Ascii.eqb c ",".
Proof. by destruct c as [[] [] [] [] [] [] [] []]. Qed.

Lemma includes_comma_cons (c : ascii) (s : string) :
  includes (String c s) "," = Ascii.eqb c "," || includes s ",".
Proof.
  cbn [includes String.prefix]. f_equal.
  destruct (ascii_dec "," c) as [<-|Hne]; [by destruct s|].
  symmetry. apply Ascii.eqb_neq. congruence.
Qed.

Lemma asciiToLowerCase_comma (s : string) :
  includes s "," = false → includes (asciiToLowerCase s) "," = false.
Proof.
  induction s as [|c s IH]; [done|]. cbn [asciiToLowerCase].
  rewrite !includes_comma_cons, lower_ascii_comma.
  intros H. apply orb_false_iff in H as [-> H]. by rewrite IH.
Qed.

Definition basicLatin : Unicode :=
  {| toLowerCase := asciiToLowerCase;
     trim := asciiTrim;
     toLowerCase_comma := asciiToLowerCase_comma |}.

Definition ada : Profile :=
  {| name := "Ada"; age := Fin 30; occupation := Some "Engineer";
     bio := Some "I love travel and music";
     interests := Some ["Music"; "music"];
     location := Some "Boston, MA" |}.

Definition ben : Profile :=
  {| name := "Ben"; age := Fin 28; occupation := None;
     bio := Some "Music, hiking and food";
     interests := Some ["music"];
     location := Some "Chicago, IL" |}.

Definition cleo : Profile :=
  {| name := "Cleo"; age := Fin 41; occupation := Some "Chef";
     bio := Some "Cooking and travel";
     interests := Some ["Hiking"; "Music"];
     location := Some "Austin, TX" |}.

Definition dan : Profile :=
  {| name := "Dan"; age := Fin 33; occupation := None;
     bio := None;
     interests := Some ["music"; "Chess"];
     location := Some "Dallas, tx" |}.

Definition eve : Profile :=
  {| name := "Eve"; age := Fin 52; occupation := None; bio := None;
     interests := None; location := None |}.

Definition fay : Profile :=
  {| name := "Fay"; age := Fin 45; occupation := None; bio := Some "";
     interests := Some []; location := None |}.

(** [ben], twelve years older. *)
Definition benOlder : Profile :=
  {| name := "Ben"; age := Fin 40; occupation := None;
     bio := Some "Music, hiking and food";
     interests := Some ["music"];
     location := Some "Chicago, IL" |}.

(** A chat completion whose first choice carries [content]. *)
Definition chatCompletion (content : JsVal) : FetchOutcome :=
  Resolves
    {| status := 200;
       json := Ok (JObj [("choices",
                 JArr [JObj [("message", JObj [("content", content)])]])]) |}.

(** A runtime that reads the empty object and nothing else. *)
Definition emptyObjectRuntime : Runtime :=
  {| JSON_parse := λ s, if String.eqb s "{}" then Some (JObj []) else None;
     StringToNumber := λ _, NaN;
     ObjectToString := λ _, "" |}.

Definition keyedEngine : Engine :=
  {| apiKey := Some "sk-test"; localStorage := ∅ |}.

Definition keylessEngine : Engine :=
  {| apiKey := None; localStorage := ∅ |}.

Definition offline : Env :=
  {| random := 1 # 2; fetch := Rejects TypeError |}.

Definition like12 : Like :=
  {| fromUserId := 1; toUserId := 2; type := "like";
     likedAt := "2024-05-01T10:00:00.000Z" |}.

Definition like21 : Like :=
  {| fromUserId := 2; toUserId := 1; type := "like";
     likedAt := "2024-05-02T09:30:00.000Z" |}.

(** Users 1 and 2 like each other. *)
Definition mutualDb : DB :=
  {| likes := <[2 := like21]> (<[1 := like12]> ∅); messages := ∅ |}.

(** A chat of match 7 between users 1 and 2, and one message of match 8. *)
Definition chatDb : DB :=
  {| likes := ∅;
     messages :=
       <[4 := {| matchId := 8; senderId := 2; text := "elsewhere";
                 timestamp := 40; read := false |}]>
       (<[3 := {| matchId := 7; senderId := 2; text := "seen";
                  timestamp := 10; read := true |}]>
       (<[2 := {| matchId := 7; senderId := 1; text := "hi";
                  timestamp := 30; read := false |}]>
       (<[1 := {| matchId := 7; senderId := 2; text := "hello";
                  timestamp := 20; read := false |}]> ∅))) |}.


(** The double quote. *)
Definition quote : string := String "034" EmptyString.

(** The text of a JSON object whose only member is a score of 150. *)
Definition score150Text : string :=
  "{" +:+ quote +:+ "score" +:+ quote +:+ ":150}".

(** A runtime that reads that object and nothing else. *)
Definition score150Runtime : Runtime :=
  {| JSON_parse := λ s, if String.eqb s score150Text
                        then Some (JObj [("score", JNum (Fin 150))])
                        else None;
     StringToNumber := λ _, NaN;
     ObjectToString := λ _, "" |}.

Definition online150 : Env :=
  {| random := 1 # 2; fetch := chatCompletion (JStr score150Text) |}.

(** The database at three moments: keys 11 and 12 are free in [mutualDb]
    and in [chatDb]. *)
Definition at11 : AddEnv :=
  {| generated := 11; nowISO := "2024-06-01T08:00:00.000Z"; nowInstant := 50 |}.

Definition at12 : AddEnv :=
  {| generated := 12; nowISO := "2024-06-01T09:00:00.000Z"; nowInstant := 60 |}.

(** Two notifications of user 1 and one of user 2. *)
Definition inbox : gmap Z Notifications.Notification :=
  <[3 := {| Notifications.userId := 2; Notifications.type := "match";
            Notifications.message := "It's a match!";
            Notifications.data := JNull;
            Notifications.timestamp := 30; Notifications.read := false |}]>
  (<[2 := {| Notifications.userId := 1; Notifications.type := "message";
             Notifications.message := "New message";
             Notifications.data := JNull;
             Notifications.timestamp := 20; Notifications.read := false |}]>
  (<[1 := {| Notifications.userId := 1; Notifications.type := "match";
             Notifications.message := "It's a match!";
             Notifications.data := JNull;
             Notifications.timestamp := 10; Notifications.read := true |}]>
   ∅)).

(** A [parseInt] for the samples: numbers are returned as they are. *)
Definition numberParsing : Parsing :=
  {| parseInt := λ v, match v with JNum n => n | _ => NaN end |}.

Definition gina : Users.UserData :=
  {| Users.data_name := "Gina"; Users.data_email := "gina@example.com";
     Users.data_password := "Secret123"; Users.data_age := JNum (Fin 29);
     Users.data_gender := "female"; Users.data_isAdmin := JUndefined |}.

(** A number printer for the samples: every number prints as [0]. *)
Definition zeroPrinting : BackendAPI.Printing :=
  {| BackendAPI.NumberToString := λ _, "0" |}.

(** The reply to a login: a token and a user id. *)
Definition loginReply : JsVal :=
  JObj [("access_token", JStr "tok-1"); ("user_id", JStr "42")].

(** A reply to a login that carries no token. *)
Definition tokenlessReply : JsVal := JObj [("user_id", JStr "42")].

Definition answered (code : Z) (body : JsVal) : FetchOutcome :=
  Resolves {| status := code; json := Ok body |}.

Definition loggedOut : BackendAPI.Api := BackendAPI.new ∅.

Definition loggedIn : BackendAPI.Api :=
  BackendAPI.new (<["user_id" := "7"]> (<["auth_token" := "tok-0"]> ∅)).

(** A page served from a machine of the private network, with an address
    of the API left in [localStorage]. *)
Definition lanPage : BackendAPI.Page :=
  {| BackendAPI.queryOverride := Some "http://query.example/";
     BackendAPI.storageOverride := Some "https://api.example.com///";
     BackendAPI.globalOverride := None;
     BackendAPI.hostname := "172.20.1.5";
     BackendAPI.origin := "http://172.20.1.5:3000" |}.

Definition plainPage : BackendAPI.Page :=
  {| BackendAPI.queryOverride := None;
     BackendAPI.storageOverride := None;
     BackendAPI.globalOverride := None;
     BackendAPI.hostname := "172.20.1.5";
     BackendAPI.origin := "http://172.20.1.5:3000" |}.

(** * Properties *)

(** ** Numbers and strings *)

Example toLowerCase_ex :
  @toLowerCase basicLatin "New York, NY" = "new york, ny".
Proof. reflexivity. Qed.

Example split_ex : split "," "Austin, TX" = ["Austin"; " TX"].
Proof. reflexivity. Qed.

Example split_none_ex : split "," "Boston" !! 1%nat = None.
Proof. reflexivity. Qed.

Example trim_ex : @trim basicLatin "  TX " = "TX".
Proof. reflexivity. Qed.

Lemma Qle_bool_inject_Z (a b : Z) :
  Qle_bool (inject_Z a) (inject_Z b) = (a <=? b).
Proof. unfold Qle_bool; simpl. by rewrite !Z.mul_1_r. Qed.

Lemma num_leb_trans (a b c : num) :
  num_leb a b = true → num_leb b c = true → num_leb a c = true.
Proof.
  destruct a, b, c; simpl; try done.
  rewrite !Qle_bool_iff. apply Qle_trans.
Qed.

(** ** Rounding to the nearest double *)

Lemma nearestEven_Qeq (x y : Q) : (x == y)%Q → nearestEven x = nearestEven y.
Proof.
  intros H. unfold nearestEven. rewrite (Qfloor_comp x y H).
  assert ((x - inject_Z (Qfloor y) ?= 1 # 2) =
          (y - inject_Z (Qfloor y) ?= 1 # 2))%Q as -> by (by rewrite H).
  done.
Qed.

Lemma nearestEven_bounds (y : Q) :
  Qfloor y ≤ nearestEven y ≤ Qfloor y + 1.
Proof.
  unfold nearestEven.
  destruct (_ ?= _)%Q; [destruct (Z.even _)|..]; lia.
Qed.

Lemma nearestEven_Z (z : Z) : nearestEven (inject_Z z) = z.
Proof.
  unfold nearestEven. rewrite Qfloor_Z.
  destruct (Qcompare_spec (inject_Z z - inject_Z z) (1 # 2)) as [H|H|H];
    [exfalso; lra | done | exfalso; lra].
Qed.

Lemma nearestEven_mono (x y : Q) :
  (x <= y)%Q → nearestEven x ≤ nearestEven y.
Proof.
  intros H. pose proof (Qfloor_resp_le _ _ H) as Hf.
  destruct (decide (Qfloor x = Qfloor y)) as [E|N].
  - unfold nearestEven. rewrite E.
    destruct (Qcompare_spec (x - inject_Z (Qfloor y)) (1 # 2)) as [H1|H1|H1];
      destruct (Qcompare_spec (y - inject_Z (Qfloor y)) (1 # 2)) as [H2|H2|H2];
      try destruct (Z.even (Qfloor y)); try lia; exfalso; lra.
  - pose proof (nearestEven_bounds x). pose proof (nearestEven_bounds y). lia.
Qed.

Lemma inject_Z_pow2_pos (j : Z) : 0 ≤ j → (0 < inject_Z (2 ^ j))%Q.
Proof.
  intros H. change 0%Q with (inject_Z 0). rewrite <- Zlt_Qlt.
  by apply Z.pow_pos_nonneg.
Qed.

Lemma nearestEven_le (x : Q) (z j : Z) :
  0 ≤ j →
  (x <= inject_Z (z * 2 ^ j))%Q → nearestEven (x / inject_Z (2 ^ j)) ≤ z.
Proof.
  intros Hj H. rewrite <- (nearestEven_Z z). apply nearestEven_mono.
  apply Qle_shift_div_r; [by apply inject_Z_pow2_pos|].
  by rewrite <- inject_Z_mult.
Qed.

Lemma nearestEven_ge (x : Q) (z j : Z) :
  0 ≤ j →
  (inject_Z (z * 2 ^ j) <= x)%Q → z ≤ nearestEven (x / inject_Z (2 ^ j)).
Proof.
  intros Hj H. rewrite <- (nearestEven_Z z) at 1. apply nearestEven_mono.
  apply Qle_shift_div_l; [by apply inject_Z_pow2_pos|].
  by rewrite <- inject_Z_mult.
Qed.

Lemma nearestUnits_Qeq (x y : Q) : (x == y)%Q → nearestUnits x = nearestUnits y.
Proof.
  intros H. unfold nearestUnits. rewrite (Qfloor_comp x y H).
  f_equal. apply nearestEven_Qeq. by rewrite H.
Qed.

Lemma nearestUnits_nonneg (y : Q) : (0 <= y)%Q → 0 ≤ nearestUnits y.
Proof.
  intros H. unfold nearestUnits.
  set (j := Z.max 0 _). apply Z.mul_nonneg_nonneg; [|apply Z.pow_nonneg; lia].
  apply (nearestEven_ge y 0 j); [lia|]. by rewrite Z.mul_0_l.
Qed.

Lemma nearestUnits_mono (x y : Q) :
  (0 <= x)%Q → (x <= y)%Q → nearestUnits x ≤ nearestUnits y.
Proof.
  intros H0 H. unfold nearestUnits.
  pose proof (Qfloor_resp_le _ _ H) as Hf.
  pose proof (Z.log2_le_mono _ _ Hf) as Hl.
  assert (0 ≤ Qfloor x) as Hfx.
  { rewrite <- (Qfloor_Z 0). by apply Qfloor_resp_le. }
  set (L := Z.log2 (Qfloor x)) in *. set (L' := Z.log2 (Qfloor y)) in *.
  set (j := Z.max 0 (L - 52)). set (j' := Z.max 0 (L' - 52)).
  assert (0 ≤ j ∧ 0 ≤ j') as [Hj Hj'] by lia.
  destruct (decide (j = j')) as [<-|N].
  - apply Z.mul_le_mono_nonneg_r; [apply Z.pow_nonneg; lia|].
    apply nearestEven_mono, Qle_shift_div_l; [by apply inject_Z_pow2_pos|].
    unfold Qdiv. rewrite <- Qmult_assoc, (Qmult_comm (/ _)), Qmult_inv_r, Qmult_1_r;
      [done|].
    pose proof (inject_Z_pow2_pos j Hj). lra.
  - assert (L < L' ∧ j' = L' - 52 ∧ j < j') as (HL & Ej' & Hjj) by lia.
    assert (x <= inject_Z (2 ^ L'))%Q as Hx.
    { apply Qlt_le_weak, Qlt_le_trans with (inject_Z (Qfloor x + 1));
        [apply Qlt_floor|].
      rewrite <- Zle_Qle.
      transitivity (2 ^ (L + 1)); [|apply Z.pow_le_mono_r; lia].
      destruct (decide (Qfloor x = 0)) as [->|Hpos].
      - change (0 + 1) with (2 ^ 0). apply Z.pow_le_mono_r; [lia|].
        pose proof (Z.log2_nonneg (Qfloor x)). lia.
      - pose proof (Z.log2_spec (Qfloor x)) as Hs. unfold Z.succ in Hs.
        fold L in Hs. lia. }
    assert (inject_Z (2 ^ L') <= y)%Q as Hy.
    { apply Qle_trans with (inject_Z (Qfloor y)); [|apply Qfloor_le].
      rewrite <- Zle_Qle. apply Z.log2_spec.
      destruct (Z.le_gt_cases (Qfloor y) 0) as [Hle|]; [|done].
      pose proof (Z.log2_nonpos _ Hle). lia. }
    transitivity (2 ^ L').
    + replace (2 ^ L') with (2 ^ (L' - j) * 2 ^ j)
        by (rewrite <- Z.pow_add_r by lia; f_equal; lia).
      apply Z.mul_le_mono_nonneg_r; [apply Z.pow_nonneg; lia|].
      apply nearestEven_le; [done|].
      rewrite <- Z.pow_add_r by lia. by replace (L' - j + j) with L' by lia.
    + replace (2 ^ L') with (2 ^ 52 * 2 ^ j') at 1
        by (rewrite <- Z.pow_add_r by lia; f_equal; lia).
      apply Z.mul_le_mono_nonneg_r; [apply Z.pow_nonneg; lia|].
      apply nearestEven_ge; [done|].
      rewrite <- Z.pow_add_r by lia. by replace (52 + j') with L' by lia.
Qed.

Lemma nearestDouble_Qeq (x y : Q) : (x == y)%Q → nearestDouble x = nearestDouble y.
Proof.
  intros H. unfold nearestDouble.
  by rewrite (nearestUnits_Qeq (x * _) (y * _)) by (by rewrite H).
Qed.

(** A rounded magnitude is a magnitude. *)
Lemma nearestDouble_cases (q : Q) :
  (0 <= q)%Q →
  nearestDouble q = PosInf ∨ ∃ v, nearestDouble q = Fin v ∧ (0 <= v)%Q.
Proof.
  intros H. unfold nearestDouble.
  set (n := nearestUnits _). destruct (2 ^ 2098 <=? n); [by left|right].
  eexists. split; [done|]. rewrite Qred_correct.
  apply Qle_shift_div_l; [by apply inject_Z_pow2_pos|].
  rewrite Qmult_0_l. change 0%Q with (inject_Z 0). rewrite <- Zle_Qle.
  apply nearestUnits_nonneg.
  apply Qmult_le_0_compat; [done|]. by apply Qlt_le_weak, inject_Z_pow2_pos.
Qed.

Lemma nearestDouble_mono (x y : Q) :
  (0 <= x)%Q → (x <= y)%Q →
  num_leb (nearestDouble x) (nearestDouble y) = true.
Proof.
  intros H0 H. unfold nearestDouble.
  assert (nearestUnits (x * inject_Z (2 ^ 1074)) ≤
          nearestUnits (y * inject_Z (2 ^ 1074))) as Hn.
  { pose proof (inject_Z_pow2_pos 1074 ltac:(lia)).
    apply nearestUnits_mono.
    - apply Qmult_le_0_compat; [done|]. by apply Qlt_le_weak.
    - apply Qmult_le_compat_r; [done|]. by apply Qlt_le_weak. }
  set (n := nearestUnits (x * _)) in *. set (n' := nearestUnits (y * _)) in *.
  destruct (Z.leb_spec (2 ^ 2098) n), (Z.leb_spec (2 ^ 2098) n');
    try done; [lia|].
  cbn [num_leb]. apply Qle_bool_iff, Qred_le.
  apply Qmult_le_compat_r; [by rewrite <- Zle_Qle|].
  by apply Qlt_le_weak, Qinv_lt_0_compat, inject_Z_pow2_pos.
Qed.

Lemma Qle_bool_Qeq (x y : Q) : (x == y)%Q → Qle_bool 0 x = Qle_bool 0 y.
Proof.
  intros H. destruct (Qle_bool 0 y) eqn:E.
  - apply Qle_bool_iff. apply Qle_bool_iff in E. by rewrite H.
  - destruct (Qle_bool 0 x) eqn:E'; [|done].
    apply Qle_bool_iff in E'. rewrite H in E'. apply Qle_bool_iff in E'.
    congruence.
Qed.

Lemma round64_Qeq (x y : Q) : (x == y)%Q → round64 x = round64 y.
Proof.
  intros H. unfold round64. rewrite (Qle_bool_Qeq x y H).
  rewrite (nearestDouble_Qeq x y H).
  by rewrite (nearestDouble_Qeq (- x) (- y)) by (by rewrite H).
Qed.

Lemma num_opp_involutive (a : num) : num_opp (num_opp a) = a.
Proof.
  destruct a as [| |[n d]|]; try done.
  unfold num_opp, Qopp; cbn [Qnum Qden]. by rewrite Z.opp_involutive.
Qed.

Lemma round64_opp (q : Q) : round64 (- q) = num_opp (round64 q).
Proof.
  unfold round64.
  destruct (Qle_bool 0 q) eqn:E, (Qle_bool 0 (- q)) eqn:E'.
  - apply Qle_bool_iff in E, E'.
    assert (q == 0)%Q as H0 by lra.
    rewrite (nearestDouble_Qeq (- q) 0), (nearestDouble_Qeq q 0); [done|done|].
    rewrite H0. reflexivity.
  - f_equal. apply nearestDouble_Qeq. apply Qopp_involutive.
  - by rewrite num_opp_involutive.
  - exfalso.
    assert (¬ (0 <= q)%Q) as N by (intros X; apply Qle_bool_iff in X; congruence).
    assert (¬ (0 <= - q)%Q) as N' by (intros X; apply Qle_bool_iff in X; congruence).
    lra.
Qed.

Lemma round64_not_NaN (q : Q) : round64 q ≠ NaN.
Proof.
  unfold round64, nearestDouble.
  destruct (Qle_bool 0 q); [by destruct (_ <=? _)|].
  by destruct (_ <=? _).
Qed.

Lemma num_leb_opp (a b : num) :
  num_leb a b = true → num_leb (num_opp b) (num_opp a) = true.
Proof.
  destruct a as [| |x|], b as [| |y|]; cbn [num_leb num_opp]; try done.
  rewrite !Qle_bool_iff. lra.
Qed.

Lemma round64_mono (x y : Q) :
  (x <= y)%Q → num_leb (round64 x) (round64 y) = true.
Proof.
  intros H. unfold round64.
  destruct (Qle_bool 0 x) eqn:E, (Qle_bool 0 y) eqn:E'.
  - apply Qle_bool_iff in E. by apply nearestDouble_mono.
  - exfalso. apply Qle_bool_iff in E.
    assert (Qle_bool 0 y = true) by (apply Qle_bool_iff; lra). congruence.
  - assert (0 <= - x)%Q as Hx.
    { destruct (Qlt_le_dec x 0); [lra|].
      assert (Qle_bool 0 x = true) by (by apply Qle_bool_iff). congruence. }
    apply Qle_bool_iff in E'.
    destruct (nearestDouble_cases _ Hx) as [->|(v & -> & Hv)],
             (nearestDouble_cases _ E') as [->|(w & -> & Hw)];
      cbn [num_opp num_leb]; try done.
    apply Qle_bool_iff. lra.
  - assert (0 <= - y)%Q as Hy.
    { destruct (Qlt_le_dec y 0); [lra|].
      assert (Qle_bool 0 y = true) by (by apply Qle_bool_iff). congruence. }
    apply num_leb_opp, nearestDouble_mono; [done|lra].
Qed.

Lemma Math_abs_opp (a : num) : Math_abs (num_opp a) = Math_abs a.
Proof.
  destruct a as [| |[n d]|]; try done.
  unfold Math_abs, num_opp, Qabs, Qopp; cbn [Qnum Qden]. by rewrite Z.abs_opp.
Qed.

Lemma Math_abs_sub_comm (a b : num) :
  Math_abs (num_sub a b) = Math_abs (num_sub b a).
Proof.
  destruct a as [| |x|], b as [| |y|]; try reflexivity.
  cbn [num_sub]. rewrite (round64_Qeq (y - x) (- (x - y))) by ring.
  by rewrite round64_opp, Math_abs_opp.
Qed.

(** Integers of up to 53 bits are doubles. *)
Example round64_integers :
  round64 85 = Fin 85 ∧ round64 (- (7 # 1)) = Fin (- (7 # 1)) ∧
  round64 (inject_Z (2 ^ 53)) = Fin (inject_Z (2 ^ 53)).
Proof. by vm_compute. Qed.

(** One tenth is not a double, and the largest double is followed by
    [Infinity]. *)
Example round64_ex :
  round64 (1 # 10) = Fin (3602879701896397 # 36028797018963968) ∧
  round64 (inject_Z (2 ^ 1024 - 2 ^ 970)) = PosInf.
Proof. by vm_compute. Qed.

Lemma num_add_mono (a b : Z) (j : num) :
  a ≤ b → j ≠ NaN →
  num_leb (num_add (Fin (inject_Z a)) j) (num_add (Fin (inject_Z b)) j) = true.
Proof.
  intros Hab Hj. destruct j as [| |v|]; try done.
  cbn [num_add]. apply round64_mono.
  apply Qplus_le_l. by rewrite <- Zle_Qle.
Qed.

Lemma jitter_not_NaN (r : Q) : jitter r ≠ NaN.
Proof.
  unfold jitter. cbn [num_mul].
  pose proof (round64_not_NaN (r * 10)).
  destruct (round64 (r * 10)) as [| |v|]; try done.
  cbn [num_sub]. apply round64_not_NaN.
Qed.

Lemma num_add_not_NaN (x : Q) (j : num) : j ≠ NaN → num_add (Fin x) j ≠ NaN.
Proof.
  destruct j as [| |v|]; try done. intros _. cbn [num_add].
  apply round64_not_NaN.
Qed.

Lemma clamp_integer (z : Z) :
  clamp (Fin (inject_Z z)) = Fin (inject_Z (Z.min 100 (Z.max 0 z))).
Proof.
  unfold clamp, Math_max, Math_min, num_leb.
  change 0%Q with (inject_Z 0). change 100%Q with (inject_Z 100).
  rewrite Qle_bool_inject_Z.
  destruct (Z.leb_spec 0 z) as [H0|H0]; rewrite Qle_bool_inject_Z.
  - destruct (Z.leb_spec 100 z); do 2 f_equal; lia.
  - simpl. do 2 f_equal; lia.
Qed.

Lemma clamp_range (x : num) :
  x ≠ NaN → ∃ q, clamp x = Fin q ∧ (0 <= q)%Q ∧ (q <= 100)%Q.
Proof.
  destruct x as [| |q|]; [done|intros _..].
  - exists 0%Q. by vm_compute.
  - unfold clamp, Math_max, Math_min, num_leb.
    destruct (Qle_bool 0 q) eqn:H0.
    + destruct (Qle_bool 100 q) eqn:H1.
      * exists 100%Q. split; [done|]. split; [by vm_compute | apply Qle_refl].
      * exists q. split; [done|]. apply Qle_bool_iff in H0. split; [done|].
        apply Qnot_lt_le. intros Hlt.
        assert (Qle_bool 100 q = true)
          by (apply Qle_bool_iff, Qlt_le_weak, Hlt).
        congruence.
    + exists 0%Q. split; [done|]. split; [apply Qle_refl | by vm_compute].
  - exists 100%Q. split; [done|]. split; [by vm_compute | apply Qle_refl].
Qed.

Lemma clamp_NaN : clamp NaN = NaN.
Proof. reflexivity. Qed.

(** Rounding to an integer and clamping give an integer from 0 to 100. *)
Lemma clamp_round_range (x : num) :
  x ≠ NaN →
  ∃ z : Z, clamp (Math_round x) = Fin (inject_Z z) ∧ 0 ≤ z ≤ 100.
Proof.
  destruct x as [| |q|]; [done|intros _..].
  - by exists 0.
  - cbn [Math_round]. eexists. split; [apply clamp_integer | lia].
  - by exists 100.
Qed.

Lemma clamp_round_mono (x y : num) :
  num_leb x y = true →
  num_leb (clamp (Math_round x)) (clamp (Math_round y)) = true.
Proof.
  intros H.
  assert (x ≠ NaN ∧ y ≠ NaN) as [Hx Hy] by (by destruct x, y).
  destruct x as [| |p|], y as [| |q|]; try done.
  - destruct (clamp_round_range (Fin q)) as (z & -> & Hz); [done|].
    change (clamp (Math_round NegInf)) with (Fin (inject_Z 0)).
    cbn [num_leb]. rewrite Qle_bool_inject_Z. apply Z.leb_le. lia.
  - cbn [Math_round]. rewrite !clamp_integer. cbn [num_leb] in *.
    rewrite Qle_bool_inject_Z. apply Z.leb_le.
    apply Qle_bool_iff in H.
    assert (Qfloor (p + (1 # 2)) ≤ Qfloor (q + (1 # 2)))
      by (apply Qfloor_resp_le; lra).
    lia.
  - destruct (clamp_round_range (Fin p)) as (z & -> & Hz); [done|].
    change (clamp (Math_round PosInf)) with (Fin (inject_Z 100)).
    cbn [num_leb]. rewrite Qle_bool_inject_Z. apply Z.leb_le. lia.
Qed.

(** ** The fallback score *)

Lemma jitteredScore_not_NaN `{Unicode} (r : Q) (p1 p2 : Profile) :
  jitteredScore r p1 p2 ≠ NaN.
Proof. apply num_add_not_NaN, jitter_not_NaN. Qed.

(** The fallback returns an integer from 0 to 100 as [score]. *)
Lemma simple_score_range `{Unicode} (r : Q) (p1 p2 : Profile) :
  ∃ z : Z,
    score (simpleCompatibility r p1 p2) = Fin (inject_Z z) ∧ 0 ≤ z ≤ 100.
Proof. apply clamp_round_range, jitteredScore_not_NaN. Qed.

Lemma ageBand_antitone (d d' : num) :
  num_leb d d' = true → ageBand d' ≤ ageBand d.
Proof.
  intros H. unfold ageBand.
  destruct (num_leb d' (Fin 5)) eqn:H5.
  { by rewrite (num_leb_trans _ _ _ H H5). }
  destruct (num_leb d' (Fin 10)) eqn:H10.
  { rewrite (num_leb_trans _ _ _ H H10). by destruct (num_leb d (Fin 5)). }
  destruct (num_leb d' (Fin 15)) eqn:H15.
  { rewrite (num_leb_trans _ _ _ H H15).
    by destruct (num_leb d (Fin 5)), (num_leb d (Fin 10)). }
  by destruct (num_leb d (Fin 5)), (num_leb d (Fin 10)), (num_leb d (Fin 15)).
Qed.

Lemma ageBand_bands (d : Q) :
  ((d <= 5)%Q → ageBand (Fin d) = 15) ∧
  ((5 < d)%Q → (d <= 10)%Q → ageBand (Fin d) = 10) ∧
  ((10 < d)%Q → (d <= 15)%Q → ageBand (Fin d) = 5) ∧
  ((15 < d)%Q → ageBand (Fin d) = -10).
Proof.
  assert (Hno : ∀ c, (c < d)%Q → Qle_bool d c = false).
  { intros c Hc. destruct (Qle_bool d c) eqn:E; [|done].
    apply Qle_bool_iff in E. exfalso. by apply (Qlt_not_le _ _ Hc). }
  assert (Hyes : ∀ c, (d <= c)%Q → Qle_bool d c = true).
  { intros c Hc. by apply Qle_bool_iff. }
  unfold ageBand, num_leb. repeat split.
  - intros H. by rewrite Hyes.
  - intros H1 H2. by rewrite (Hno 5%Q), (Hyes 10%Q).
  - intros H1 H2. rewrite (Hno 5%Q), (Hno 10%Q), (Hyes 15%Q); try done.
    eapply Qlt_trans; [|exact H1]. done.
  - intros H. rewrite (Hno 5%Q), (Hno 10%Q), (Hno 15%Q); try done.
    all: eapply Qlt_trans; [|exact H]; done.
Qed.

(** ** Interests *)

Lemma existsb_equalIgnoringCase `{Unicode} (i : string) (l : list string) :
  existsb (λ j, String.eqb (toLowerCase j) (toLowerCase i)) l = true ↔
  Exists (equalIgnoringCase i) l.
Proof.
  rewrite existsb_exists, Exists_exists. unfold equalIgnoringCase.
  split; intros (j & Hj & E); exists j.
  - apply String.eqb_eq in E. split; [by apply list_elem_of_In | done].
  - split; [by apply list_elem_of_In | by apply String.eqb_eq].
Qed.

(** The list the code filters has as many entries as the count of the
    statement. *)
Lemma commonInterests_length `{Unicode} (l1 l2 : list string) :
  length (commonInterests l1 l2) = countCommon l1 l2.
Proof.
  unfold commonInterests, countCommon.
  induction l1 as [|i l1 IH]; [done|].
  cbn [List.filter]. rewrite filter_cons.
  destruct (existsb _ l2) eqn:E.
  - apply existsb_equalIgnoringCase in E.
    rewrite decide_True by done. simpl. by rewrite IH.
  - rewrite decide_False; [done|].
    intros Hex. apply existsb_equalIgnoringCase in Hex. congruence.
Qed.

Lemma countCommon_lowered `{Unicode} (l1 l2 : list string) :
  countCommon l1 l2 =
  length (filter (λ x, x ∈ toLowerCase <$> l2) (toLowerCase <$> l1)).
Proof.
  unfold countCommon.
  induction l1 as [|i l1 IH]; [done|].
  rewrite fmap_cons, !filter_cons.
  assert (Exists (equalIgnoringCase i) l2 ↔ toLowerCase i ∈ toLowerCase <$> l2) as Hiff.
  { rewrite Exists_exists, list_elem_of_fmap. unfold equalIgnoringCase.
    split; intros (j & ? & ?); exists j; done. }
  destruct (decide (Exists (equalIgnoringCase i) l2)) as [Hex|Hex].
  - rewrite decide_True by (by apply Hiff). simpl. by rewrite IH.
  - rewrite decide_False by (by rewrite <- Hiff). done.
Qed.

(** On lists without repetition the count does not depend on the side
    from which it is taken. *)
Lemma countCommon_comm `{Unicode} (l1 l2 : list string) :
  NoDup (toLowerCase <$> l1) → NoDup (toLowerCase <$> l2) →
  countCommon l1 l2 = countCommon l2 l1.
Proof.
  intros H1 H2. rewrite !countCommon_lowered.
  apply Permutation_length, NoDup_Permutation.
  - by apply NoDup_filter.
  - by apply NoDup_filter.
  - intros x. rewrite !list_elem_of_filter. tauto.
Qed.

Lemma interestBonus_comm `{Unicode} (i1 i2 : option (list string)) :
  match i1 with Some l => NoDup (toLowerCase <$> l) | None => True end →
  match i2 with Some l => NoDup (toLowerCase <$> l) | None => True end →
  interestBonus i1 i2 = interestBonus i2 i1.
Proof.
  destruct i1 as [l1|], i2 as [l2|]; try done. intros H1 H2.
  unfold interestBonus. rewrite (andb_comm (0 <? length l2)%nat).
  by rewrite !commonInterests_length, (countCommon_comm l1 l2).
Qed.

Lemma interestBonus_range `{Unicode} (i1 i2 : option (list string)) :
  0 ≤ interestBonus i1 i2 ≤ 20.
Proof.
  unfold interestBonus. destruct i1, i2; try lia.
  destruct (_ && _); lia.
Qed.

(** ** Location and bio *)

Lemma locationBonus_comm `{Unicode} (l1 l2 : option string) :
  locationBonus l1 l2 = locationBonus l2 l1.
Proof.
  destruct l1 as [a|], l2 as [b|]; try done.
  unfold locationBonus.
  rewrite (andb_comm (truthy_str (Some b))).
  rewrite (andb_comm (includes (toLowerCase b) "ny")).
  rewrite (bool_decide_ext (region (toLowerCase b) = region (toLowerCase a))
             (region (toLowerCase a) = region (toLowerCase b))); [done|].
  split; congruence.
Qed.

Lemma bioBonus_comm `{Unicode} (b1 b2 : option string) :
  bioBonus b1 b2 = bioBonus b2 b1.
Proof.
  destruct b1 as [a|], b2 as [b|]; try done.
  unfold bioBonus. rewrite (andb_comm (truthy_str (Some b))).
  rewrite (List.filter_ext
             (λ keyword, includes (toLowerCase b) keyword &&
                         includes (toLowerCase a) keyword)
             (λ keyword, includes (toLowerCase a) keyword &&
                         includes (toLowerCase b) keyword)); [done|].
  intros k. apply andb_comm.
Qed.

Lemma baseScore_comm `{Unicode} (p1 p2 : Profile) :
  distinctInterests p1 → distinctInterests p2 →
  baseScore p1 p2 = baseScore p2 p1.
Proof.
  intros H1 H2. unfold baseScore.
  rewrite (Math_abs_sub_comm (age p1)), (locationBonus_comm (location p1)),
    (bioBonus_comm (bio p1)), (interestBonus_comm (interests p1)); done.
Qed.

(** ** The claims on the fallback algorithm *)

(** C4, as stated, fails: with a repeated interest on one side the score
    depends on the order of the two profiles. *)
Lemma simpleCompatibility_order_matters :
  score (@simpleCompatibility basicLatin (1 # 2) ada ben) = Fin 77 ∧
  score (@simpleCompatibility basicLatin (1 # 2) ben ada) = Fin 72 ∧
  score (@simpleCompatibility basicLatin (1 # 2) ada ben) ≠
  score (@simpleCompatibility basicLatin (1 # 2) ben ada).
Proof. vm_compute. repeat split; discriminate. Qed.

(** C4, amended: for every value of the jitter draw, the fallback gives
    the pair [(p1, p2)] and the pair [(p2, p1)] the same score, provided
    neither interests list holds two entries equal up to letter case. *)
Theorem simpleCompatibility_symmetric `{Unicode} (r : Q) (p1 p2 : Profile) :
  distinctInterests p1 → distinctInterests p2 →
  score (simpleCompatibility r p1 p2) = score (simpleCompatibility r p2 p1).
Proof.
  intros H1 H2. unfold simpleCompatibility, jitteredScore. cbn [score].
  by rewrite (baseScore_comm p1 p2).
Qed.

Lemma simpleCompatibility_symmetric_witness :
  @distinctInterests basicLatin cleo ∧ @distinctInterests basicLatin dan ∧
  score (@simpleCompatibility basicLatin (1 # 2) cleo dan) =
  score (@simpleCompatibility basicLatin (1 # 2) dan cleo).
Proof.
  assert (H1 : @distinctInterests basicLatin cleo)
    by (apply (bool_decide_unpack _); vm_compute; exact I).
  assert (H2 : @distinctInterests basicLatin dan)
    by (apply (bool_decide_unpack _); vm_compute; exact I).
  split; [exact H1 | split; [exact H2 |]].
  exact (@simpleCompatibility_symmetric basicLatin (1 # 2) cleo dan H1 H2).
Defined.

(** ** Comma-free locations *)

Lemma split_commaFree (s : string) : commaFree s → split "," s = [s].
Proof.
  unfold commaFree. induction s as [|c s IH]; [done|].
  rewrite includes_comma_cons. intros H. apply orb_false_iff in H as [Hc Hs].
  cbn [split]. by rewrite Hc, IH.
Qed.

(** Lower-casing brings no comma, so a location without one has no region
    component. *)
Lemma region_commaFree `{Unicode} (s : string) :
  commaFree s → region (toLowerCase s) = None.
Proof.
  intros Hs. unfold region.
  by rewrite split_commaFree by (by apply toLowerCase_comma).
Qed.

(** C5: the code gives the location bonus of 10 to any two locations
    without a comma that are not both matched by [ny], however unrelated:
    both region components are [undefined], and [undefined === undefined]. *)
Theorem locationBonus_commaFree `{Unicode} (l1 l2 : string) :
  l1 ≠ "" → l2 ≠ "" → commaFree l1 → commaFree l2 →
  includes (toLowerCase l1) "ny" && includes (toLowerCase l2) "ny" = false →
  locationBonus (Some l1) (Some l2) = 10.
Proof.
  intros N1 N2 C1 C2 Hny. unfold locationBonus, truthy_str.
  apply String.eqb_neq in N1, N2. rewrite N1, N2, Hny. simpl.
  by rewrite !region_commaFree.
Qed.

Lemma locationBonus_commaFree_witness :
  @locationBonus basicLatin (Some "Boston") (Some "Chicago") = 10.
Proof. by apply (@locationBonus_commaFree basicLatin "Boston" "Chicago"). Defined.

(** ** The interest bonus *)

(** C6: for two profiles with non-empty interests lists, the interests add
    [min(20, 5 * k)] to the score before clamping, [k] being the number of
    entries of the first list that equal, case aside, some entry of the
    second: the score on reaching the jitter is this much above what it is
    without the interests, and what is returned is that sum after jitter,
    rounding and clamping.  The bonus is at most 20 whatever the lists. *)
Theorem interest_contribution `{Unicode} (p1 p2 : Profile)
    (i1 i2 : list string) :
  interests p1 = Some i1 → interests p2 = Some i2 → i1 ≠ [] → i2 ≠ [] →
  let k := Z.of_nat (countCommon i1 i2) in
  baseScore p1 p2 = baseScore (withoutInterests p1) p2 + Z.min 20 (5 * k) ∧
  (∀ r, score (simpleCompatibility r p1 p2) =
        clamp (Math_round
                 (num_add
                    (Fin (inject_Z (baseScore (withoutInterests p1) p2 +
                                    Z.min 20 (5 * k))))
                    (jitter r)))) ∧
  Z.min 20 (5 * k) ≤ 20.
Proof.
  intros E1 E2 N1 N2 k.
  assert (Hb : baseScore p1 p2 =
               baseScore (withoutInterests p1) p2 + Z.min 20 (5 * k)).
  { unfold baseScore, withoutInterests; cbn [age location interests bio].
    rewrite E1, E2. unfold interestBonus.
    destruct i1; [done|]. destruct i2; [done|].
    cbn [length Nat.ltb Nat.leb andb].
    rewrite commonInterests_length. subst k. lia. }
  split; [exact Hb|]. split; [|lia].
  intros r. unfold simpleCompatibility, jitteredScore. cbn [score].
  by rewrite Hb.
Qed.

Lemma interest_contribution_witness :
  @baseScore basicLatin ada ben =
  @baseScore basicLatin (withoutInterests ada) ben + 10.
Proof.
  refine (proj1 (@interest_contribution basicLatin ada ben
                   ["Music"; "music"] ["music"] _ _ _ _)); done.
Defined.

(** ** The age bands *)

Lemma ageBand_inBand (d : Q) : inBand d (ageBand (Fin d)).
Proof.
  destruct (ageBand_bands d) as (B1 & B2 & B3 & B4). unfold inBand.
  destruct (Qlt_le_dec 5 d) as [H5|H5]; [|left; auto].
  destruct (Qlt_le_dec 10 d) as [H10|H10]; [|right; left; auto].
  destruct (Qlt_le_dec 15 d) as [H15|H15]; [|right; right; left; auto].
  right; right; right; auto.
Qed.

Lemma bare_baseScore `{Unicode} (p1 p2 : Profile) :
  bare p1 → bare p2 → baseScore p1 p2 = 50 + ageBand (ageGap p1 p2).
Proof.
  intros (L1 & I1 & B1) (L2 & I2 & B2). unfold baseScore, ageGap.
  assert (locationBonus (location p1) (location p2) = 0) as ->.
  { unfold locationBonus. rewrite L1. by destruct (location p1), (location p2). }
  assert (interestBonus (interests p1) (interests p2) = 0) as ->.
  { unfold interestBonus. destruct I1 as [->| ->]; [done|].
    by destruct (interests p2). }
  assert (bioBonus (bio p1) (bio p2) = 0) as ->.
  { unfold bioBonus. rewrite B1. by destruct (bio p1), (bio p2). }
  lia.
Qed.

Lemma sameButAge_baseScore `{Unicode} (p1 p2 q1 q2 : Profile) :
  sameButAge p1 q1 → sameButAge p2 q2 →
  baseScore p1 p2 - ageBand (ageGap p1 p2) =
  baseScore q1 q2 - ageBand (ageGap q1 q2).
Proof.
  intros (_ & _ & B1 & I1 & L1) (_ & _ & B2 & I2 & L2).
  unfold baseScore, ageGap. rewrite B1, B2, I1, I2, L1, L2. lia.
Qed.

(** The gap the code computes is the double nearest to the gap of the
    ages, so that gaps come out in the order of the exact ones. *)
Lemma ageGap_rounded (p1 p2 q1 q2 : Profile) (a1 a2 b1 b2 : Q) :
  age p1 = Fin a1 → age p2 = Fin a2 → age q1 = Fin b1 → age q2 = Fin b2 →
  (Qabs (a1 - a2) <= Qabs (b1 - b2))%Q →
  num_leb (ageGap p1 p2) (ageGap q1 q2) = true.
Proof.
  intros A1 A2 B1 B2 Hgap. unfold ageGap. rewrite A1, A2, B1, B2.
  cbn [num_sub].
  assert (∀ x, Math_abs (round64 x) = round64 (Qabs x)) as Habs.
  { intros x. destruct (Qlt_le_dec x 0) as [Hx|Hx].
    - rewrite (round64_Qeq (Qabs x) (- x)) by (by rewrite Qabs_neg by lra).
      rewrite round64_opp, <- Math_abs_opp.
      assert (0 <= - x)%Q as Hx' by lra.
      rewrite <- round64_opp. unfold round64.
      apply Qle_bool_iff in Hx' as ->.
      assert (0 <= - x)%Q as Hx' by lra.
      destruct (nearestDouble_cases _ Hx') as [->|(v & -> & Hv)]; [done|].
      cbn [Math_abs]. f_equal. destruct v as [n d].
      unfold Qle in Hv; cbn in Hv. unfold Qabs. f_equal. lia.
    - rewrite (round64_Qeq (Qabs x) x) by (by rewrite Qabs_pos).
      unfold round64. pose proof Hx as Hx'. apply Qle_bool_iff in Hx' as ->.
      destruct (nearestDouble_cases _ Hx) as [->|(v & -> & Hv)]; [done|].
      cbn [Math_abs]. f_equal. destruct v as [n d].
      unfold Qle in Hv; cbn in Hv. unfold Qabs. f_equal. lia. }
  rewrite !Habs. by apply round64_mono.
Qed.

(** C7: the score starts from 50; of two pairs of profiles that differ
    only in the ages, under the same jitter draw, the pair with the smaller
    age gap scores at least as much, whether the gaps are compared as the
    code computes them or exactly; and for two profiles with no location,
    no interests and no bio the score is [clamp(round(50 + b + jitter))],
    [b] being 15, 10, 5 or -10 according to the band of the age gap and
    the sum being the one the code computes. *)
Theorem age_bands `{Unicode} (r : Q) :
  (∀ p1 p2 q1 q2 : Profile,
     sameButAge p1 q1 → sameButAge p2 q2 →
     num_leb (ageGap p1 p2) (ageGap q1 q2) = true →
     num_leb (score (simpleCompatibility r q1 q2))
             (score (simpleCompatibility r p1 p2)) = true) ∧
  (∀ (p1 p2 q1 q2 : Profile) (a1 a2 b1 b2 : Q),
     sameButAge p1 q1 → sameButAge p2 q2 →
     age p1 = Fin a1 → age p2 = Fin a2 → age q1 = Fin b1 → age q2 = Fin b2 →
     (Qabs (a1 - a2) <= Qabs (b1 - b2))%Q →
     num_leb (score (simpleCompatibility r q1 q2))
             (score (simpleCompatibility r p1 p2)) = true) ∧
  (∀ (p1 p2 : Profile) (d : Q),
     bare p1 → bare p2 → ageGap p1 p2 = Fin d →
     ∃ b : Z, inBand d b ∧
       score (simpleCompatibility r p1 p2) =
       clamp (Math_round (num_add (Fin (inject_Z (50 + b))) (jitter r)))).
Proof.
  assert (Hmono : ∀ p1 p2 q1 q2 : Profile,
     sameButAge p1 q1 → sameButAge p2 q2 →
     num_leb (ageGap p1 p2) (ageGap q1 q2) = true →
     num_leb (score (simpleCompatibility r q1 q2))
             (score (simpleCompatibility r p1 p2)) = true).
  { intros p1 p2 q1 q2 S1 S2 Hgap.
    unfold simpleCompatibility, jitteredScore. cbn [score].
    apply clamp_round_mono, num_add_mono; [|apply jitter_not_NaN].
    pose proof (sameButAge_baseScore _ _ _ _ S1 S2).
    pose proof (ageBand_antitone _ _ Hgap). lia. }
  split; [exact Hmono|]. split.
  - intros p1 p2 q1 q2 a1 a2 b1 b2 S1 S2 A1 A2 B1 B2 Hgap.
    apply Hmono; [done..|]. by eapply ageGap_rounded.
  - intros p1 p2 d B1 B2 Hd. exists (ageBand (Fin d)).
    split; [apply ageBand_inBand|].
    unfold simpleCompatibility, jitteredScore; cbn [score].
    by rewrite (bare_baseScore p1 p2 B1 B2), Hd.
Qed.

Lemma age_bands_witness :
  num_leb (score (@simpleCompatibility basicLatin (1 # 2) benOlder ada))
          (score (@simpleCompatibility basicLatin (1 # 2) ben ada)) = true ∧
  ∃ b : Z, inBand 7 b ∧
    score (@simpleCompatibility basicLatin (1 # 2) eve fay) =
    clamp (Math_round (num_add (Fin (inject_Z (50 + b))) (jitter (1 # 2)))).
Proof.
  destruct (@age_bands basicLatin (1 # 2)) as (Hmono & _ & Hbare). split.
  - apply (Hmono ben ada benOlder ada); by repeat split.
  - apply (Hbare eve fay 7%Q); repeat split; auto.
Defined.

(** At the double nearest to 0.95 the product [Math.random() * 10] is
    rounded up to 9.5, and the score of the pair is 65, a tie broken
    upwards, where the exact sum would be rounded to 64. *)
Example jitter_rounds :
  jitter (4278419646001971 # 4503599627370496) = Fin (9 # 2) ∧
  score (@simpleCompatibility basicLatin
           (4278419646001971 # 4503599627370496) eve fay) = Fin 65.
Proof. by vm_compute. Qed.

(** ** Statelessness *)

(** C8: the fallback is a function of the two profiles and of the jitter
    draw alone: two runs that agree on these return the same object
    (score, reason, highlights, concerns), whatever the state [S] of the
    page (the engine's fields, [localStorage], the database) and whatever
    the network does, and a run leaves that state as it found it. *)
Theorem calculateSimpleCompatibility_stateless `{Unicode} {S : Type}
    (p1 p2 : Profile) (env env' : Env) (s s' : S) :
  random env = random env' →
  fst (calculateSimpleCompatibility p1 p2 env s) =
  fst (calculateSimpleCompatibility p1 p2 env' s') ∧
  fst (calculateSimpleCompatibility p1 p2 env s) =
  Ok (simpleCompatibility (random env) p1 p2) ∧
  snd (calculateSimpleCompatibility p1 p2 env s) = s.
Proof.
  intros Hr. unfold calculateSimpleCompatibility, bind, Math_random, ret.
  cbn [fst snd]. by rewrite Hr.
Qed.

Lemma calculateSimpleCompatibility_stateless_witness :
  fst (@calculateSimpleCompatibility basicLatin _ ada ben offline
         (keyedEngine, chatDb)) =
  fst (@calculateSimpleCompatibility basicLatin _ ada ben
         {| random := 1 # 2; fetch := chatCompletion (JStr "{}") |}
         (keylessEngine, mutualDb)) ∧
  snd (@calculateSimpleCompatibility basicLatin _ ada ben offline
         (keyedEngine, chatDb)) =
  (keyedEngine, chatDb).
Proof.
  pose proof (@calculateSimpleCompatibility_stateless basicLatin _ ada ben
                offline
                {| random := 1 # 2; fetch := chatCompletion (JStr "{}") |}
                (keyedEngine, chatDb) (keylessEngine, mutualDb) eq_refl)
    as (H1 & _ & H3).
  exact (conj H1 H3).
Defined.

(** ** The LLM path *)

Lemma getApiKey_run (env : Env) (this : Engine) :
  getApiKey env this = (Ok (apiKey (cached this)), cached this).
Proof.
  unfold getApiKey, bind, get, modify, ret, cached.
  destruct this as [key storage]; cbn [apiKey localStorage].
  by destruct (truthy_str key).
Qed.

Lemma cached_idem (this : Engine) : cached (cached this) = cached this.
Proof.
  destruct this as [key storage]. unfold cached; cbn [apiKey localStorage].
  destruct (truthy_str key) eqn:E; [by rewrite E|].
  by destruct (truthy_str (storage !! "openai_api_key")).
Qed.

Lemma hasApiKey_run (env : Env) (this : Engine) :
  hasApiKey env this = (Ok (truthy_str (apiKey (cached this))), cached this).
Proof. unfold hasApiKey, bind. by rewrite getApiKey_run. Qed.

(** Reading the key twice changes nothing. *)
Lemma callChatGPT_cached (env : Env) (this : Engine) :
  callChatGPT env (cached this) = callChatGPT env this.
Proof. unfold callChatGPT, bind. by rewrite !getApiKey_run, cached_idem. Qed.

(** A failed request makes the call throw. *)
Lemma callChatGPT_transport (env : Env) (this : Engine) (e : Exn) :
  fetch env = Rejects e → ∃ e', fst (callChatGPT env this) = Throw e'.
Proof.
  intros Hf. unfold callChatGPT, bind. rewrite getApiKey_run.
  destruct (truthy_str (apiKey (cached this))); cbn [negb].
  - unfold try_catch, ask, throw. rewrite Hf. by exists e.
  - by exists Error.
Qed.

(** The step of [calculateCompatibility] that follows the key check. *)
Lemma calculateCompatibility_run `{Runtime} `{Unicode} (p1 p2 : Profile)
    (env : Env) (this : Engine) :
  fst (calculateCompatibility p1 p2 env this) =
  if truthy_str (apiKey (cached this)) then
    match fst (callChatGPT env this) with
    | Ok response =>
        match responseMatch response with
        | Ok (Some text) =>
            match JSON_parse text with
            | Some result =>
                match get_prop result "score", get_prop result "reason",
                      get_prop result "highlights", get_prop result "concerns"
                with
                | Ok s, Ok r, Ok h, Ok c =>
                    Ok {| score := clamp (ToNumber s);
                          reason := r;
                          highlights := js_or h (JArr []);
                          concerns := js_or c (JArr []) |}
                | _, _, _, _ => Ok (simpleCompatibility (random env) p1 p2)
                end
            | None => Ok (simpleCompatibility (random env) p1 p2)
            end
        | _ => Ok (simpleCompatibility (random env) p1 p2)
        end
    | Throw _ => Ok (simpleCompatibility (random env) p1 p2)
    end
  else Ok (simpleCompatibility (random env) p1 p2).
Proof.
  unfold calculateCompatibility, bind at 1. rewrite hasApiKey_run.
  destruct (truthy_str (apiKey (cached this))); cbn [negb]; [|done].
  unfold try_catch, bind at 1. rewrite callChatGPT_cached.
  destruct (callChatGPT env this) as [[response|e] this1]; cbn [fst]; [|done].
  unfold lift_res, bind, throw, ret, calculateSimpleCompatibility, Math_random.
  destruct (responseMatch response) as [[text|]|e]; cbn [fst]; try done.
  destruct (JSON_parse text) as [result|]; cbn [fst]; try done.
  destruct (get_prop result "score"); cbn [fst]; [|done].
  destruct (get_prop result "reason"); cbn [fst]; [|done].
  destruct (get_prop result "highlights"); cbn [fst]; [|done].
  destruct (get_prop result "concerns"); cbn [fst]; done.
Qed.

(** [calculateCompatibility] never throws. *)
Lemma calculateCompatibility_total `{Runtime} `{Unicode} (p1 p2 : Profile)
    (env : Env) (this : Engine) :
  ∃ c, fst (calculateCompatibility p1 p2 env this) = Ok c.
Proof.
  rewrite calculateCompatibility_run.
  repeat (match goal with |- context [match ?x with _ => _ end] => destruct x end);
    eauto.
Qed.

(** On the LLM path the score is the parsed [score], converted to a number
    and clamped: within 0 and 100 unless the conversion gives [NaN]. *)
Lemma llm_score_clamped `{Runtime} (v : JsVal) :
  ToNumber v ≠ NaN →
  ∃ q, clamp (ToNumber v) = Fin q ∧ (0 <= q)%Q ∧ (q <= 100)%Q.
Proof. apply clamp_range. Qed.

(** Whatever the path, the score returned is within 0 and 100, or [NaN]. *)
Lemma calculateCompatibility_score_range `{Runtime} `{Unicode} (p1 p2 : Profile)
    (env : Env) (this : Engine) :
  ∃ c, fst (calculateCompatibility p1 p2 env this) = Ok c ∧
       (score c = NaN ∨
        ∃ q, score c = Fin q ∧ (0 <= q)%Q ∧ (q <= 100)%Q).
Proof.
  assert (Hsimple : ∀ r, ∃ q, score (simpleCompatibility r p1 p2) = Fin q ∧
                              (0 <= q)%Q ∧ (q <= 100)%Q).
  { intros r. destruct (simple_score_range r p1 p2) as (z & -> & Hz).
    exists (inject_Z z). split; [done|].
    change 0%Q with (inject_Z 0). change 100%Q with (inject_Z 100).
    rewrite <- !Zle_Qle. lia. }
  rewrite calculateCompatibility_run.
  repeat (match goal with
          | |- context [match ?x with _ => _ end] => destruct x
          end);
    try (eexists; split; [reflexivity|]; right; apply Hsimple).
  eexists; split; [reflexivity|]. cbn [score].
  match goal with |- context [ToNumber ?v] => destruct (ToNumber v) eqn:E end;
    [by left|right; by apply clamp_range..].
Qed.

(** C1: with a key set, a reply whose JSON object has no [score] makes
    [calculateCompatibility] return [NaN] as the score.  The reply is the
    text of the empty object; the runtime is any that parses it. *)
Theorem calculateCompatibility_score_NaN `{Runtime} `{Unicode}
    (p1 p2 : Profile) (r : Q) (key : string) (storage : gmap string string) :
  key ≠ "" →
  JSON_parse "{}" = Some (JObj []) →
  fst (calculateCompatibility p1 p2
         {| random := r; fetch := chatCompletion (JStr "{}") |}
         {| apiKey := Some key; localStorage := storage |}) =
  Ok {| score := NaN; reason := JUndefined;
        highlights := JArr []; concerns := JArr [] |}.
Proof.
  intros Hkey Hparse. apply String.eqb_neq in Hkey.
  rewrite calculateCompatibility_run.
  unfold callChatGPT, bind. rewrite getApiKey_run.
  unfold cached, truthy_str; cbn [apiKey localStorage]. rewrite Hkey.
  cbn. rewrite !Hkey. cbn. by rewrite Hparse.
Qed.

Lemma calculateCompatibility_score_NaN_witness :
  fst (@calculateCompatibility emptyObjectRuntime basicLatin ada ben
         {| random := 1 # 2; fetch := chatCompletion (JStr "{}") |}
         keyedEngine) =
  Ok {| score := NaN; reason := JUndefined;
        highlights := JArr []; concerns := JArr [] |}.
Proof.
  apply (@calculateCompatibility_score_NaN emptyObjectRuntime basicLatin
           ada ben (1 # 2) "sk-test" ∅); done.
Defined.

(** C2: without a key, on a transport error or any other failure of the
    call, on a reply that holds no JSON object and on a reply whose object
    does not parse, [calculateCompatibility] returns what
    [calculateSimpleCompatibility] returns for the same profiles, and does
    not throw. *)
Theorem calculateCompatibility_fallback `{Runtime} `{Unicode}
    (p1 p2 : Profile) (env : Env) (this : Engine) :
  fallbackCase env this →
  fst (calculateCompatibility p1 p2 env this) =
  fst (calculateSimpleCompatibility p1 p2 env this) ∧
  fst (calculateCompatibility p1 p2 env this) =
  Ok (simpleCompatibility (random env) p1 p2).
Proof.
  intros Hcase.
  assert (fst (calculateSimpleCompatibility p1 p2 env this) =
          Ok (simpleCompatibility (random env) p1 p2)) as -> by done.
  split; [|]; rewrite calculateCompatibility_run.
  all: destruct (truthy_str (apiKey (cached this))) eqn:Hkey; [|done].
  all: destruct Hcase as [Hno|e Hf|e Hthrow|response e Hr Hm|response Hr Hm
                          |response text Hr Hm Hp].
  all: try (rewrite hasApiKey_run in Hno; cbn [fst] in Hno; congruence).
  all: try (destruct (callChatGPT_transport env this e Hf) as [e' ->]; done).
  all: try (by rewrite Hthrow).
  all: rewrite Hr, Hm; try done.
  all: by rewrite Hp.
Qed.

Lemma calculateCompatibility_fallback_witness :
  fst (@calculateCompatibility emptyObjectRuntime basicLatin ada ben offline
         keyedEngine) =
  Ok (@simpleCompatibility basicLatin (1 # 2) ada ben).
Proof.
  refine (proj2 (@calculateCompatibility_fallback emptyObjectRuntime
                   basicLatin ada ben offline keyedEngine _)).
  by apply (transportError offline keyedEngine TypeError).
Defined.

(** ** Object stores *)

Section store.
Context {V : Type}.
Implicit Types (store : gmap Z V) (P : Z * V → bool).

Lemma getAll_Permutation store : getAll store ≡ₚ map_to_list store.
Proof. apply merge_sort_Permutation. Qed.

Lemma elem_of_getAll store id v :
  (id, v) ∈ getAll store ↔ store !! id = Some v.
Proof. by rewrite getAll_Permutation, elem_of_map_to_list. Qed.

Lemma NoDup_fst_getAll store : NoDup (getAll store).*1.
Proof. rewrite getAll_Permutation. apply NoDup_fst_map_to_list. Qed.

(** [find] on the records finds one exactly when one is stored. *)
Lemma find_getAll store P :
  is_Some (List.find P (getAll store)) ↔
  ∃ id v, store !! id = Some v ∧ P (id, v) = true.
Proof.
  split.
  - intros [[id v] Hf]. apply find_some in Hf as [Hin HP].
    exists id, v. split; [|done].
    by apply elem_of_getAll, list_elem_of_In.
  - intros (id & v & Hs & HP).
    destruct (List.find P (getAll store)) as [x|] eqn:Hf; [by exists x|].
    rewrite (find_none _ _ Hf (id, v)) in HP; [done|].
    by apply list_elem_of_In, elem_of_getAll.
Qed.

End store.

Lemma filter_bool {A : Type} (f : A → bool) (l : list A) :
  List.filter f l = filter (λ x, f x = true) l.
Proof.
  induction l as [|x l IH]; [done|].
  cbn [List.filter]. rewrite filter_cons, IH.
  destruct (f x); [by rewrite decide_True | by rewrite decide_False].
Qed.

(** ** Mutual likes *)

Lemma find_like (store : gmap Z Like) (u v : Z) :
  is_Some (List.find (λ l, (fromUserId (snd l) =? u) &&
                           (toUserId (snd l) =? v) &&
                           String.eqb (type (snd l)) "like") (getAll store)) ↔
  likesToward store u v.
Proof.
  rewrite find_getAll. unfold likesToward.
  split; intros (id & l & Hs & H); exists id, l; (split; [done|]).
  - cbn [snd] in H. apply andb_true_iff in H as [H Ht].
    apply andb_true_iff in H as [Hf Hto].
    apply Z.eqb_eq in Hf, Hto. by apply String.eqb_eq in Ht.
  - destruct H as (Hf & Hto & Ht). cbn beta. cbn [snd].
    by rewrite Hf, Hto, Ht, !Z.eqb_refl.
Qed.

(** C3, as stated, fails: users 1 and 2 like each other, and the two calls
    resolve to two different records, neither of them [true]. *)
Lemma checkMutualLike_not_symmetric :
  fst (checkMutualLike 1 2 tt mutualDb) = Ok (Some (2, like21)) ∧
  fst (checkMutualLike 2 1 tt mutualDb) = Ok (Some (1, like12)) ∧
  fst (checkMutualLike 1 2 tt mutualDb) ≠ fst (checkMutualLike 2 1 tt mutualDb).
Proof. vm_compute. repeat split; discriminate. Qed.

(** C3, amended: [checkMutualLike(u1, u2)] resolves to a truthy value (a
    like record, not [true]) exactly when the store holds a ['like'] from
    [u1] toward [u2] and one from [u2] toward [u1], and to [undefined]
    otherwise; so the two orders of the arguments agree on whether the
    result is truthy.  The store is not changed. *)
Theorem checkMutualLike_truthy (db : DB) (u1 u2 : Z) :
  ∃ r12 r21 : option (Z * Like),
    checkMutualLike u1 u2 tt db = (Ok r12, db) ∧
    checkMutualLike u2 u1 tt db = (Ok r21, db) ∧
    (is_Some r12 ↔ likesToward (likes db) u1 u2 ∧ likesToward (likes db) u2 u1) ∧
    (is_Some r12 ↔ is_Some r21).
Proof.
  unfold checkMutualLike, bind, get, ret. cbv zeta beta iota.
  eexists _, _. split; [reflexivity|]. split; [reflexivity|].
  rewrite <- (find_like (likes db) u1 u2), <- (find_like (likes db) u2 u1).
  destruct (List.find _ _), (List.find _ _); cbn [js_and];
    rewrite ?is_Some_alt; tauto.
Qed.

(** ** Read receipts *)

(** The requests of [markMessagesAsRead] all succeed; the store after them
    is the fold of the writes. *)
Lemma forAll_put_run (l : list (Z * Message)) (db : DB) :
  forAll (λ message, put (setRead message)) l tt db =
  (Ok (replicate (length l) tt),
   {| likes := likes db;
      messages := foldl (λ st m, <[fst m := asRead (snd m)]> st)
                        (messages db) l |}).
Proof.
  revert db. induction l as [|m l IH]; intros db; [by destruct db|].
  cbn [forAll]. unfold bind at 1. unfold put at 1, modify, setRead.
  cbn [fst snd]. unfold bind at 1. rewrite IH. done.
Qed.

(** A fold of writes under distinct keys, read back. *)
Lemma foldl_insert_lookup {V : Type} (f : V → V) (l : list (Z * V))
    (st : gmap Z V) (k : Z) :
  NoDup l.*1 →
  foldl (λ st m, <[fst m := f (snd m)]> st) st l !! k =
  match (list_to_map l : gmap Z V) !! k with
  | Some v => Some (f v)
  | None => st !! k
  end.
Proof.
  revert st. induction l as [|[k0 v0] l IH]; intros st Hnd; [done|].
  apply NoDup_cons in Hnd as [Hk0 Hnd].
  cbn [foldl fst snd]. rewrite IH by done. rewrite list_to_map_cons.
  destruct (decide (k = k0)) as [->|Hne].
  - rewrite (not_elem_of_list_to_map_1 l k0 Hk0), !lookup_insert_eq. done.
  - rewrite !lookup_insert_ne by done. done.
Qed.

(** The messages [markMessagesAsRead] writes: those of the match that the
    user did not send and has not read, each once. *)
Lemma unreadMessages_Permutation (store : gmap Z Message) (matchId' userId : Z) :
  List.filter (λ m, negb (senderId (snd m) =? userId) && negb (read (snd m)))
    (merge_sort byTime
       (List.filter (λ m, matchId (snd m) =? matchId') (getAll store))) ≡ₚ
  filter (λ m, unreadBy matchId' userId (snd m)) (map_to_list store).
Proof.
  rewrite !filter_bool, merge_sort_Permutation, getAll_Permutation.
  rewrite list_filter_filter.
  rewrite (list_filter_iff _ (λ m, unreadBy matchId' userId (snd m))); [done|].
  intros [id m]. cbn [snd]. unfold unreadBy.
  rewrite andb_true_iff, !negb_true_iff, Z.eqb_eq, Z.eqb_neq. tauto.
Qed.

Lemma unreadMessages_NoDup (store : gmap Z Message) (matchId' userId : Z) :
  NoDup (List.filter
           (λ m, negb (senderId (snd m) =? userId) && negb (read (snd m)))
           (merge_sort byTime
              (List.filter (λ m, matchId (snd m) =? matchId')
                 (getAll store)))).*1.
Proof.
  rewrite unreadMessages_Permutation.
  eapply sublist_NoDup; [apply (NoDup_fst_map_to_list store)|].
  apply fmap_sublist, sublist_filter.
Qed.

Lemma elem_of_unreadMessages (store : gmap Z Message) (matchId' userId : Z)
    (id : Z) (m : Message) :
  (id, m) ∈ List.filter
              (λ m, negb (senderId (snd m) =? userId) && negb (read (snd m)))
              (merge_sort byTime
                 (List.filter (λ m, matchId (snd m) =? matchId')
                    (getAll store))) ↔
  store !! id = Some m ∧ unreadBy matchId' userId m.
Proof.
  rewrite unreadMessages_Permutation, list_elem_of_filter, elem_of_map_to_list.
  cbn [snd]. tauto.
Qed.

(** C10: [markMessagesAsRead(matchId, userId)] sets the [read] flag of the
    messages of that match that [userId] did not send and that were unread,
    and changes nothing else: a message sent by [userId], a message already
    read and a message of another match stay as they were, no message
    appears or disappears, and the likes are not touched.  Every request
    succeeds. *)
Theorem markMessagesAsRead_frame (matchId' userId : Z) (db : DB) :
  ∃ (acks : list unit) (db' : DB),
    markMessagesAsRead matchId' userId tt db = (Ok acks, db') ∧
    likes db' = likes db ∧
    ∀ id : Z,
      messages db' !! id = marked matchId' userId <$> messages db !! id.
Proof.
  unfold markMessagesAsRead, bind at 1, getMatchMessages, bind at 1, get, ret.
  rewrite forAll_put_run. eexists _, _. split; [reflexivity|].
  split; [done|]. intros id. cbn [messages].
  rewrite (foldl_insert_lookup asRead) by apply unreadMessages_NoDup.
  unfold marked.
  destruct (list_to_map _ !! id) as [m|] eqn:Hl.
  - apply elem_of_list_to_map_2, elem_of_unreadMessages in Hl as [Hs Hu].
    rewrite Hs. cbn. by rewrite decide_True.
  - destruct (messages db !! id) as [m|] eqn:Hs; [|done]. cbn.
    rewrite decide_False; [done|]. intros Hu.
    apply not_elem_of_list_to_map_2 in Hl. apply Hl.
    apply list_elem_of_fmap. exists (id, m). split; [done|].
    by apply elem_of_unreadMessages.
Qed.

(** The chat of match 7 once user 1 has opened it: message 1, from user 2
    and unread, is now read; message 2 (user 1's own), message 3 (read
    before) and message 4 (another match) are as they were. *)
Example markMessagesAsRead_chat :
  let db' := snd (markMessagesAsRead 7 1 tt chatDb) in
  read <$> messages db' !! 1 = Some true ∧
  messages db' !! 2 = messages chatDb !! 2 ∧
  messages db' !! 3 = messages chatDb !! 3 ∧
  messages db' !! 4 = messages chatDb !! 4 ∧
  messages db' !! 5 = None.
Proof. by vm_compute. Qed.

(** ** Logout *)

(** [apiCall] keeps the two fields of the client; it can only remove
    entries of [localStorage]. *)
Lemma apiCall_fields (endpoint method : string) (outcome : FetchOutcome)
    (this : BackendAPI.Api) :
  let this' := snd (BackendAPI.apiCall endpoint method outcome this) in
  BackendAPI.token this' = BackendAPI.token this ∧
  BackendAPI.currentUserId this' = BackendAPI.currentUserId this.
Proof.
  unfold BackendAPI.apiCall, try_catch, bind, ask, throw, lift_res,
    BackendAPI.removeItem, modify, ret.
  destruct outcome as [e|response]; cbn.
  - by destruct (String.eqb _ _).
  - destruct (ok response); cbn.
    + destruct (json response) as [v|e]; cbn; [done|].
      by destruct (String.eqb _ _).
    + destruct (status response =? 401); cbn; [|done].
      by destruct (negb _).
Qed.

(** Whatever the request does, the [finally] block removes the two
    entries. *)
Lemma logout_clears_session_lookup (outcome : FetchOutcome)
    (this : BackendAPI.Api) :
  let this' := snd (BackendAPI.logout outcome this) in
  BackendAPI.localStorage this' !! "auth_token" = None ∧
  BackendAPI.localStorage this' !! "user_id" = None.
Proof.
  unfold BackendAPI.logout, try_finally.
  destruct (bind (BackendAPI.apiCall "/auth/logout" "POST") _ outcome this)
    as [settled this1].
  unfold bind, modify, BackendAPI.removeItem. cbn. split.
  - rewrite lookup_delete_ne by done. apply lookup_delete_eq.
  - apply lookup_delete_eq.
Qed.

(** C9: once [logout()] has settled, with the request to [/auth/logout]
    answered, refused or failed, [token] and [currentUserId] are [null],
    [localStorage] holds neither [auth_token] nor [user_id], and
    [isLoggedIn()] is false. *)
Theorem logout_clears_session (outcome : FetchOutcome) (this : BackendAPI.Api) :
  ∃ (settled : Res unit) (this' : BackendAPI.Api),
    BackendAPI.logout outcome this = (settled, this') ∧
    BackendAPI.token this' = JNull ∧
    BackendAPI.currentUserId this' = JNull ∧
    BackendAPI.localStorage this' !! "auth_token" = None ∧
    BackendAPI.localStorage this' !! "user_id" = None ∧
    BackendAPI.isLoggedIn this' = false.
Proof.
  unfold BackendAPI.logout, try_finally.
  destruct (bind (BackendAPI.apiCall "/auth/logout" "POST") _ outcome this)
    as [settled this1].
  unfold bind, modify, BackendAPI.removeItem. cbn.
  eexists _, _. split; [reflexivity|]. cbn. repeat split.
  - rewrite lookup_delete_ne by done. apply lookup_delete_eq.
  - apply lookup_delete_eq.
Qed.

(** A client built after the logout, as on a reload of the page, is
    logged out too. *)
Lemma logout_survives_reload (outcome : FetchOutcome) (this : BackendAPI.Api) :
  let storage := BackendAPI.localStorage (snd (BackendAPI.logout outcome this)) in
  BackendAPI.isLoggedIn (BackendAPI.new storage) = false.
Proof.
  destruct (logout_clears_session_lookup outcome this) as [H1 H2].
  cbv zeta. unfold BackendAPI.isLoggedIn, BackendAPI.new, BackendAPI.getItem.
  cbn [BackendAPI.token BackendAPI.currentUserId]. by rewrite H1.
Qed.

(** The request succeeds, or fails in each of the ways [apiCall] tells
    apart; the promise of [logout] settles accordingly. *)
Example logout_settles (this : BackendAPI.Api) :
  fst (BackendAPI.logout (Resolves {| status := 200; json := Ok JNull |}) this)
    = Ok tt ∧
  fst (BackendAPI.logout (Resolves {| status := 401; json := Ok JNull |}) this)
    = Throw Error ∧
  fst (BackendAPI.logout (Rejects TypeError) this) = Throw Error ∧
  fst (BackendAPI.logout (Resolves {| status := 200; json := Throw SyntaxError |})
         this) = Throw SyntaxError.
Proof. by vm_compute. Qed.

(** * Further properties *)

(** ** The engine's key *)

(** X1: for every pair of profiles and every value of the jitter draw, the
    fallback algorithm returns an integer score between 0 and 100. *)
Theorem fallback_score_in_range `{Unicode} (r : Q) (p1 p2 : Profile) :
  ∃ z : Z,
    score (simpleCompatibility r p1 p2) = Fin (inject_Z z) ∧ 0 ≤ z ≤ 100.
Proof. apply simple_score_range. Qed.

(** X2: [calculateCompatibility] never rejects, whatever the key, the
    network and the reply; the score it resolves with is within 0 and 100,
    or [NaN]. *)
Theorem calculateCompatibility_settles `{Runtime} `{Unicode}
    (p1 p2 : Profile)
    (env : Env) (this : Engine) :
  ∃ c, fst (calculateCompatibility p1 p2 env this) = Ok c ∧
       (score c = NaN ∨
        ∃ q, score c = Fin q ∧ (0 <= q)%Q ∧ (q <= 100)%Q).
Proof. apply calculateCompatibility_score_range. Qed.

(** X3: a key given to [setApiKey] is the key [getApiKey] returns from
    then on, also to an engine built afresh over the same [localStorage],
    as after a reload; [hasApiKey] then holds unless the key is empty. *)
Theorem setApiKey_getApiKey (key : string) (env : Env) (this : Engine) :
  let this' := snd (setApiKey key env this) in
  let reloaded := {| apiKey := None; localStorage := localStorage this' |} in
  fst (getApiKey env this') = Ok (Some key) ∧
  fst (getApiKey env reloaded) = Ok (Some key) ∧
  fst (hasApiKey env this') = Ok (negb (String.eqb key "")) ∧
  fst (hasApiKey env reloaded) = Ok (negb (String.eqb key "")).
Proof.
  cbv zeta. rewrite !hasApiKey_run, !getApiKey_run.
  unfold setApiKey, modify, cached; cbn [fst snd apiKey localStorage].
  rewrite lookup_insert_eq. cbn [truthy_str].
  by destruct (String.eqb key "") eqn:E; cbn; rewrite ?E.
Qed.

(** X4: [hasApiKey] holds exactly when the field or, failing that, the
    [openai_api_key] entry of [localStorage] is a non-empty string; neither
    it nor [getApiKey] writes to [localStorage], and asking twice gives the
    same answer. *)
Theorem hasApiKey_reads (env : Env) (this : Engine) :
  let this' := snd (hasApiKey env this) in
  fst (hasApiKey env this) =
    Ok (truthy_str (apiKey this) ||
        truthy_str (localStorage this !! "openai_api_key")) ∧
  localStorage this' = localStorage this ∧
  hasApiKey env this' = hasApiKey env this.
Proof.
  cbv zeta. rewrite hasApiKey_run. cbn [fst snd].
  rewrite hasApiKey_run, cached_idem.
  split; [|done]. unfold cached; cbn [apiKey].
  by destruct (truthy_str (apiKey this)) eqn:E; [rewrite E|].
Qed.

(** ** The chat call *)

Lemma callChatGPT_run (env : Env) (this : Engine) :
  callChatGPT env this =
  (if truthy_str (apiKey (cached this)) then
     match fetch env with
     | Rejects e => Throw e
     | Resolves response =>
         if ok response then
           match json response with
           | Ok data =>
               match get_prop data "choices" with
               | Ok choices =>
                   match get_index0 choices with
                   | Ok choice =>
                       match get_prop choice "message" with
                       | Ok message => get_prop message "content"
                       | Throw e => Throw e
                       end
                   | Throw e => Throw e
                   end
               | Throw e => Throw e
               end
           | Throw e => Throw e
           end
         else
           match json response with
           | Ok error =>
               match get_prop error "error" with
               | Ok _ => Throw Error
               | Throw e => Throw e
               end
           | Throw e => Throw e
           end
     end
   else Throw Error,
   cached this).
Proof.
  unfold callChatGPT, bind at 1. rewrite getApiKey_run.
  destruct (truthy_str (apiKey (cached this))); cbn [negb]; [|done].
  unfold try_catch, bind, ask, throw, lift_res.
  destruct (fetch env) as [e|response]; [done|].
  destruct (ok response); cbn [negb].
  - destruct (json response) as [data|]; [|done].
    destruct (get_prop data "choices") as [choices|]; [|done].
    destruct (get_index0 choices) as [choice|]; [|done].
    destruct (get_prop choice "message") as [message|]; [|done].
    by destruct (get_prop message "content").
  - destruct (json response) as [error|]; [|done].
    by destruct (get_prop error "error").
Qed.

(** A call without a key rejects before any request is made. *)
Lemma callChatGPT_needs_key (env : Env) (this : Engine) (content : JsVal) :
  fst (callChatGPT env this) = Ok content →
  truthy_str (apiKey (cached this)) = true.
Proof.
  rewrite callChatGPT_run. cbn [fst].
  by destruct (truthy_str (apiKey (cached this))).
Qed.

(** X5: [callChatGPT] never writes to [localStorage], whatever its
    outcome.  It resolves only when a key is set, the request is answered
    with an [ok] status, and the body holds [choices[0].message.content],
    which it resolves to; without a key, on a failed request and on any
    other status it rejects. *)
Theorem callChatGPT_resolves (env : Env) (this : Engine) :
  localStorage (snd (callChatGPT env this)) = localStorage this ∧
  (∀ content : JsVal,
     fst (callChatGPT env this) = Ok content →
     fst (hasApiKey env this) = Ok true ∧
     ∃ response data choices choice message,
       fetch env = Resolves response ∧ ok response = true ∧
       json response = Ok data ∧
       get_prop data "choices" = Ok choices ∧
       get_index0 choices = Ok choice ∧
       get_prop choice "message" = Ok message ∧
       get_prop message "content" = Ok content) ∧
  (fst (hasApiKey env this) = Ok false →
   fst (callChatGPT env this) = Throw Error) ∧
  (∀ e, fetch env = Rejects e → ∃ e', fst (callChatGPT env this) = Throw e') ∧
  (∀ response,
     fetch env = Resolves response → ok response = false →
     ∃ e, fst (callChatGPT env this) = Throw e).
Proof.
  rewrite callChatGPT_run, hasApiKey_run. cbn [fst snd].
  split; [|split; [|split; [|split]]].
  - by destruct (truthy_str (apiKey (cached this))).
  - intros content.
    destruct (truthy_str (apiKey (cached this))); [|done].
    destruct (fetch env) as [e|response]; [done|].
    destruct (ok response) eqn:Hok.
    + destruct (json response) as [data|] eqn:Hj; [|done].
      destruct (get_prop data "choices") as [choices|] eqn:H1; [|done].
      destruct (get_index0 choices) as [choice|] eqn:H2; [|done].
      destruct (get_prop choice "message") as [message|] eqn:H3; [|done].
      intros H4. split; [done|].
      by exists response, data, choices, choice, message.
    + destruct (json response) as [error|]; [|done].
      by destruct (get_prop error "error").
  - by destruct (truthy_str (apiKey (cached this))).
  - intros e ->. destruct (truthy_str (apiKey (cached this))); eauto.
  - intros response -> ->.
    destruct (truthy_str (apiKey (cached this))); [|eauto].
    destruct (json response) as [error|]; [|eauto].
    destruct (get_prop error "error"); eauto.
Qed.

Lemma callChatGPT_resolves_witness :
  fst (hasApiKey online150 keyedEngine) = Ok true.
Proof.
  refine (proj1 (proj1 (proj2 (callChatGPT_resolves online150 keyedEngine))
                   (JStr score150Text) _)).
  reflexivity.
Defined.

(** X6: on the LLM path a numeric score of the reply is clamped: the call
    resolves with 0 for a score below 0, with 100 for a score above 100 and
    with the score itself in between; the reason is the reply's. *)
Theorem calculateCompatibility_clamps `{Runtime} `{Unicode}
    (p1 p2 : Profile) (env : Env) (this : Engine) (s text : string) (result : JsVal) (q : Q) :
  fst (callChatGPT env this) = Ok (JStr s) →
  matchObject s = Some text →
  JSON_parse text = Some result →
  get_prop result "score" = Ok (JNum (Fin q)) →
  ∃ c q', fst (calculateCompatibility p1 p2 env this) = Ok c ∧
          Ok (reason c) = get_prop result "reason" ∧
          score c = Fin q' ∧
          ((q <= 0)%Q → (q' == 0)%Q) ∧
          ((100 <= q)%Q → (q' == 100)%Q) ∧
          ((0 <= q)%Q → (q <= 100)%Q → (q' == q)%Q).
Proof.
  intros Hcall Hm Hp Hs.
  pose proof (callChatGPT_needs_key env this _ Hcall) as Hkey.
  rewrite calculateCompatibility_run, Hkey.
  rewrite Hcall. cbn [responseMatch]. rewrite Hm, Hp, Hs.
  assert (∀ k, ∃ v, get_prop result k = Ok v) as Hget.
  { intros k. destruct result; try discriminate Hs; cbn [get_prop]; eauto.
    destruct (List.find _ _); eauto. }
  destruct (Hget "reason") as [r ->], (Hget "highlights") as [h ->],
    (Hget "concerns") as [c ->].
  unfold clamp, Math_max, Math_min, num_leb. cbn [ToNumber].
  destruct (Qle_bool 0 q) eqn:E0.
  - apply Qle_bool_iff in E0. destruct (Qle_bool 100 q) eqn:E1.
    + apply Qle_bool_iff in E1. eexists _, 100%Q.
      split; [reflexivity|]. cbn [score reason]. repeat split; try done.
      * intros Hq. exfalso. apply (Qle_not_lt _ _ (Qle_trans _ _ _ E1 Hq)). done.
      * intros _ Hq. by apply Qle_antisym.
    + eexists _, q. split; [reflexivity|]. cbn [score reason].
      repeat split; try done.
      * intros Hq. by apply Qle_antisym.
      * intros Hq. apply Qle_bool_iff in Hq. congruence.
  - assert (Qle_bool 100 0 = false) as -> by done.
    eexists _, 0%Q. split; [reflexivity|]. cbn [score reason].
    assert (¬ (0 <= q)%Q) as Hn.
    { intros Hq. apply Qle_bool_iff in Hq. congruence. }
    repeat split; try done.
    intros Hq. exfalso. apply Hn. eapply Qle_trans; [|exact Hq]. done.
Qed.

Lemma calculateCompatibility_clamps_witness :
  ∃ c q', fst (@calculateCompatibility score150Runtime basicLatin ada ben
                 online150 keyedEngine) = Ok c ∧
          Ok (reason c) = get_prop (JObj [("score", JNum (Fin 150))]) "reason" ∧
          score c = Fin q' ∧
          ((150 <= 0)%Q → (q' == 0)%Q) ∧
          ((100 <= 150)%Q → (q' == 100)%Q) ∧
          ((0 <= 150)%Q → (150 <= 100)%Q → (q' == 150)%Q).
Proof.
  apply (@calculateCompatibility_clamps score150Runtime basicLatin ada ben
           online150 keyedEngine score150Text score150Text
           (JObj [("score", JNum (Fin 150))]) 150%Q); reflexivity.
Defined.

(** ** The text handed to the JSON parser *)

Lemma includes_char_cons (c d : ascii) (s : string) :
  includes (String d s) (String c EmptyString) = false →
  Ascii.eqb d c = false ∧ includes s (String c EmptyString) = false.
Proof.
  cbn [includes String.prefix].
  intros H. apply orb_false_iff in H as [H1 H2]. split; [|done].
  destruct (ascii_dec c d) as [<-|Hne].
  - by destruct s.
  - apply Ascii.eqb_neq. congruence.
Qed.

Lemma fromFirstBrace_app (pre rest : string) :
  includes pre "{" = false →
  fromFirstBrace (pre +:+ String "{" rest) = Some (String "{" rest).
Proof.
  induction pre as [|d pre IH]; [done|].
  intros H. apply includes_char_cons in H as [Hd Hpre].
  simpl. rewrite Hd. by apply IH.
Qed.

Lemma toLastBrace_None (post : string) :
  includes post "}" = false → toLastBrace post = None.
Proof.
  induction post as [|d post IH]; [done|].
  intros H. apply includes_char_cons in H as [Hd Hpost].
  cbn [toLastBrace]. by rewrite IH, Hd.
Qed.

Lemma toLastBrace_app (mid post : string) :
  includes post "}" = false →
  toLastBrace (mid +:+ String "}" post) = Some (mid +:+ "}").
Proof.
  intros Hpost. induction mid as [|d mid IH].
  - simpl. by rewrite toLastBrace_None.
  - simpl. by rewrite IH.
Qed.

(** X7: the text [calculateCompatibility] hands to [JSON.parse] runs from
    the first opening brace of the reply to its last closing brace,
    whatever stands in between, further braces included. *)
Theorem matchObject_greedy (pre mid post : string) :
  includes pre "{" = false → includes post "}" = false →
  matchObject (pre +:+ "{" +:+ mid +:+ "}" +:+ post) =
  Some ("{" +:+ mid +:+ "}").
Proof.
  intros Hpre Hpost. unfold matchObject.
  change ("{" +:+ mid +:+ "}" +:+ post)
    with (String "{" (mid +:+ String "}" post)).
  rewrite fromFirstBrace_app by done.
  by rewrite toLastBrace_app.
Qed.

Lemma matchObject_greedy_witness :
  matchObject "Sure: {a} and {b}, done" = Some "{a} and {b}".
Proof.
  by apply (matchObject_greedy "Sure: " "a} and {b" ", done").
Defined.

(** A reply without an opening brace, or with no closing brace after the
    first opening one, holds no object. *)
Example matchObject_none :
  matchObject "no object here" = None ∧ matchObject "} {" = None.
Proof. done. Qed.

(** ** Suggestions *)

(** X8: [generateConversationStarters] never rejects.  It resolves to the
    three generic starters, or else to what [JSON.parse] makes of the text
    between the first opening and the last closing bracket of the reply;
    without a key, and when the call fails, it is the generic starters. *)
Theorem generateConversationStarters_settles `{Runtime}
    (userProfile matchProfile : Profile) (env : Env) (this : Engine) :
  ∃ starters,
    fst (generateConversationStarters userProfile matchProfile env this) =
      Ok starters ∧
    (starters = getGenericConversationStarters ∨
     ∃ s text, fst (callChatGPT env this) = Ok (JStr s) ∧
               matchArray s = Some text ∧
               JSON_parse text = Some starters) ∧
    (fst (hasApiKey env this) = Ok false ∨
     (∃ e, fst (callChatGPT env this) = Throw e) →
     starters = getGenericConversationStarters).
Proof.
  unfold generateConversationStarters, bind at 1. rewrite hasApiKey_run.
  destruct (truthy_str (apiKey (cached this))) eqn:Hkey; cbn [negb].
  2: { eexists. split; [reflexivity|]. split; [by left|done]. }
  unfold try_catch, bind at 1. rewrite callChatGPT_cached.
  destruct (callChatGPT env this) as [[response|e] this1] eqn:Hcall;
    cbn [fst].
  2: { eexists. split; [reflexivity|]. split; [by left|done]. }
  unfold lift_res, bind, throw, ret.
  destruct response as [| | | |s| |]; cbn [responseMatchArray fst];
    try (eexists; split; [reflexivity|]; split; [by left|];
         by intros [|[? ?]]).
  destruct (matchArray s) as [text|] eqn:Hm; cbn [fst].
  2: { eexists; split; [reflexivity|]; split; [by left|].
       by intros [|[? ?]]. }
  destruct (JSON_parse text) as [v|] eqn:Hp; cbn [fst].
  - exists v. split; [done|]. split; [right; by exists s, text|].
    by intros [|[? ?]].
  - eexists; split; [reflexivity|]; split; [by left|]. by intros [|[? ?]].
Qed.

(** The three methods that ask for a JSON array share their shape: what
    they resolve to is the fallback, or the parsed text of the reply. *)
Ltac settle_array_reply Hkey :=
  unfold bind at 1; rewrite hasApiKey_run;
  destruct (truthy_str (apiKey (cached _))) eqn:Hkey; cbn [negb];
  [|eexists; split; [reflexivity|]; split; [by left|done]];
  unfold try_catch, bind at 1; rewrite callChatGPT_cached;
  let response := fresh "response" in
  let s := fresh "s" in
  let text := fresh "text" in
  let v := fresh "v" in
  destruct (callChatGPT _ _) as [[response|?] ?]; cbn [fst];
  [|eexists; split; [reflexivity|]; split; [by left|done]];
  unfold lift_res, bind, throw, ret;
  destruct response as [| | | |s| |]; cbn [responseMatchArray fst];
  try (eexists; split; [reflexivity|]; split; [by left|];
       by intros [|[? ?]]);
  destruct (matchArray s) as [text|] eqn:?; cbn [fst];
  [|eexists; split; [reflexivity|]; split; [by left|];
    by intros [|[? ?]]];
  destruct (JSON_parse text) as [v|] eqn:?; cbn [fst];
  [exists v; split; [done|]; split; [right; by exists s, text|];
   by intros [|[? ?]]
  |eexists; split; [reflexivity|]; split; [by left|];
   by intros [|[? ?]]].

(** X9: [generateBioSuggestions] never rejects.  It resolves to the three
    generic bios, or else to what [JSON.parse] makes of the bracketed text
    of the reply; without a key, and when the call fails, it is the
    generic bios. *)
Theorem generateBioSuggestions_settles `{Runtime}
    (userInfo : UserInfo) (env : Env) (this : Engine) :
  ∃ suggestions,
    fst (generateBioSuggestions userInfo env this) = Ok suggestions ∧
    (suggestions = getGenericBioSuggestions ∨
     ∃ s text, fst (callChatGPT env this) = Ok (JStr s) ∧
               matchArray s = Some text ∧
               JSON_parse text = Some suggestions) ∧
    (fst (hasApiKey env this) = Ok false ∨
     (∃ e, fst (callChatGPT env this) = Throw e) →
     suggestions = getGenericBioSuggestions).
Proof. unfold generateBioSuggestions. settle_array_reply Hkey. Qed.

(** ** Dating patterns *)

Lemma getSimplePatternAnalysis_cases {Match : Type}
    (interactions : list Interaction) (matches : list Match) :
  ∃ first second third : list string,
    getSimplePatternAnalysis interactions matches =
      first ++ second ++ third ++
      ["Complete your profile with photos and interests to attract better matches."] ∧
    (first = [] ∨ ∃ x, first = [x] ∧ x ≠ "Keep exploring profiles to find great matches!") ∧
    (second = [] ∨ ∃ x, second = [x] ∧ x ≠ "Keep exploring profiles to find great matches!") ∧
    third = (if (countType "like" interactions <? 5)%nat
             then ["Keep exploring profiles to find great matches!"] else []).
Proof.
  exists
    (if (countType "pass" interactions * 2 <? countType "like" interactions)%nat
     then ["You're quite open to connections! Consider being more selective to improve match quality."]
     else if (countType "like" interactions * 2 <? countType "pass" interactions)%nat
     then ["You have high standards! That's great, but try being open to unexpected connections."]
     else []),
    (if (0 <? length matches)%nat
     then ["You have " +:+ pretty (length matches) +:+ " match" +:+
           (if (1 <? length matches)%nat then "es" else "") +:+
           "! Don't forget to start conversations."]
     else []),
    (if (countType "like" interactions <? 5)%nat
     then ["Keep exploring profiles to find great matches!"] else []).
  unfold getSimplePatternAnalysis. cbv zeta.
  split; [|split; [|split; [|reflexivity]]].
  - destruct (_ <? countType "like" _)%nat;
      [|destruct (_ <? countType "pass" _)%nat];
      destruct (0 <? length matches)%nat;
      destruct (countType "like" interactions <? 5)%nat;
      reflexivity.
  - destruct (_ <? _)%nat; [right; eexists; split; [reflexivity|done]|].
    destruct (_ <? _)%nat; [right; eexists; split; [reflexivity|done]|].
    by left.
  - destruct (_ <? _)%nat; [|by left].
    right; eexists; split; [reflexivity|done].
Qed.

(** X10: the insights of [getSimplePatternAnalysis] are never empty and
    never more than four; the last is always the tip to complete the
    profile, and the tip to keep exploring is among them exactly when the
    user has liked fewer than five profiles. *)
Theorem getSimplePatternAnalysis_shape {Match : Type}
    (interactions : list Interaction) (matches : list Match) :
  let insights := getSimplePatternAnalysis interactions matches in
  (1 ≤ length insights ≤ 4)%nat ∧
  last insights =
    Some "Complete your profile with photos and interests to attract better matches." ∧
  ("Keep exploring profiles to find great matches!" ∈ insights ↔
   (countType "like" interactions < 5)%nat).
Proof.
  cbv zeta.
  destruct (getSimplePatternAnalysis_cases interactions matches)
    as (l1 & l2 & l3 & -> & H1 & H2 & ->).
  rewrite !app_assoc, last_snoc, !length_app, !elem_of_app.
  split; [|split; [done|]].
  - destruct H1 as [->|(x & -> & _)], H2 as [->|(y & -> & _)];
      destruct (_ <? 5)%nat; cbn; lia.
  - destruct (Nat.ltb_spec (countType "like" interactions) 5) as [Hlt|Hge].
    + split; [done|]. intros _. left. right. apply list_elem_of_singleton. done.
    + split; [|lia]. intros [[[Hin|Hin]|Hin]|Hin].
      * destruct H1 as [->|(x & -> & Hx)]; [by apply elem_of_nil in Hin|].
        apply list_elem_of_singleton in Hin. congruence.
      * destruct H2 as [->|(x & -> & Hx)]; [by apply elem_of_nil in Hin|].
        apply list_elem_of_singleton in Hin. congruence.
      * by apply elem_of_nil in Hin.
      * by apply list_elem_of_singleton in Hin.
Qed.

(** X11: [analyzeUserPatterns] never rejects.  It resolves to the insights
    of [getSimplePatternAnalysis] for the same interactions and matches, or
    else to what [JSON.parse] makes of the bracketed text of the reply;
    without a key, and when the call fails, it is the former. *)
Theorem analyzeUserPatterns_settles `{Runtime} {Match : Type}
    (interactions : list Interaction) (matches : list Match)
    (env : Env) (this : Engine) :
  ∃ insights,
    fst (analyzeUserPatterns interactions matches env this) = Ok insights ∧
    (insights = insightsArray (getSimplePatternAnalysis interactions matches) ∨
     ∃ s text, fst (callChatGPT env this) = Ok (JStr s) ∧
               matchArray s = Some text ∧
               JSON_parse text = Some insights) ∧
    (fst (hasApiKey env this) = Ok false ∨
     (∃ e, fst (callChatGPT env this) = Throw e) →
     insights = insightsArray (getSimplePatternAnalysis interactions matches)).
Proof. unfold analyzeUserPatterns. settle_array_reply Hkey. Qed.

(** ** Likes *)

Lemma createLike_run (u v : Z) (t : string) (env : AddEnv) (db : DB) :
  likes db !! generated env = None →
  createLike u v t env db =
  (Ok (generated env,
       {| fromUserId := u; toUserId := v; type := t; likedAt := nowISO env |}),
   {| likes := <[generated env :=
                  {| fromUserId := u; toUserId := v; type := t;
                     likedAt := nowISO env |}]> (likes db);
      messages := messages db |}).
Proof.
  intros Hfresh. unfold createLike, bind, ask, get, modify, ret.
  by rewrite Hfresh.
Qed.

(** The likes of the store after [createLike]: those it held, and the new
    one if its type is ['like']. *)
Lemma likesToward_createLike (u v : Z) (t : string) (env : AddEnv) (db : DB)
    (a b : Z) :
  likes db !! generated env = None →
  likesToward (likes (snd (createLike u v t env db))) a b ↔
  likesToward (likes db) a b ∨ (a = u ∧ b = v ∧ t = "like").
Proof.
  intros Hfresh. rewrite createLike_run by done. cbn [snd likes].
  unfold likesToward. split.
  - intros (id & l & Hl & Hf & Hto & Ht).
    destruct (decide (id = generated env)) as [->|Hne].
    + rewrite lookup_insert_eq in Hl. injection Hl as <-.
      cbn in Hf, Hto, Ht. by right.
    + rewrite lookup_insert_ne in Hl by done. left. by exists id, l.
  - intros [(id & l & Hl & H)|(-> & -> & ->)].
    + exists id, l. split; [|done].
      rewrite lookup_insert_ne; [done|]. congruence.
    + eexists _, _. split; [apply lookup_insert_eq|done].
Qed.

(** Whether [checkMutualLike] resolves to a record. *)
Lemma checkMutualLike_is_Some (db : DB) (u1 u2 : Z) :
  ∃ r, checkMutualLike u1 u2 tt db = (Ok r, db) ∧
       (is_Some r ↔
        likesToward (likes db) u1 u2 ∧ likesToward (likes db) u2 u1).
Proof.
  unfold checkMutualLike, bind, get, ret. cbv zeta beta iota.
  eexists. split; [reflexivity|].
  rewrite <- (find_like (likes db) u1 u2), <- (find_like (likes db) u2 u1).
  destruct (List.find _ _), (List.find _ _); cbn [js_and];
    rewrite ?is_Some_alt; tauto.
Qed.

(** X12: once [u1] has liked [u2] and [u2] has liked [u1], whatever else
    the store holds, [checkMutualLike] resolves to a like record for the
    pair in either order. *)
Theorem mutual_like_after_two_likes (db : DB) (u1 u2 : Z)
    (env1 env2 : AddEnv) :
  likes db !! generated env1 = None →
  let db1 := snd (createLike u1 u2 "like" env1 db) in
  likes db1 !! generated env2 = None →
  let db2 := snd (createLike u2 u1 "like" env2 db1) in
  ∃ r r', fst (checkMutualLike u1 u2 tt db2) = Ok (Some r) ∧
          fst (checkMutualLike u2 u1 tt db2) = Ok (Some r').
Proof.
  intros F1 db1 F2 db2.
  assert (likesToward (likes db2) u1 u2 ∧ likesToward (likes db2) u2 u1)
    as [H12 H21].
  { subst db2. rewrite !likesToward_createLike by done.
    subst db1. rewrite !likesToward_createLike by done. tauto. }
  destruct (checkMutualLike_is_Some db2 u1 u2) as (r & -> & Hr).
  destruct (checkMutualLike_is_Some db2 u2 u1) as (r' & -> & Hr').
  destruct (proj2 Hr (conj H12 H21)) as [x ->].
  destruct (proj2 Hr' (conj H21 H12)) as [x' ->].
  by exists x, x'.
Qed.

Lemma mutual_like_after_two_likes_witness :
  ∃ r r',
    fst (checkMutualLike 5 6 tt
           (snd (createLike 6 5 "like" at12
              (snd (createLike 5 6 "like" at11 mutualDb))))) = Ok (Some r) ∧
    fst (checkMutualLike 6 5 tt
           (snd (createLike 6 5 "like" at12
              (snd (createLike 5 6 "like" at11 mutualDb))))) = Ok (Some r').
Proof.
  apply (mutual_like_after_two_likes mutualDb 5 6 at11 at12); by vm_compute.
Defined.

(** X13: a pass or a super-like is not a like: recording an interaction of
    a type other than ['like'] changes the answer of [checkMutualLike] for
    no pair of users. *)
Theorem only_like_counts (db : DB) (u v : Z) (t : string) (env : AddEnv)
    (a b : Z) :
  likes db !! generated env = None → t ≠ "like" →
  let db' := snd (createLike u v t env db) in
  ∃ r r', fst (checkMutualLike a b tt db') = Ok r' ∧
          fst (checkMutualLike a b tt db) = Ok r ∧
          (is_Some r' ↔ is_Some r).
Proof.
  intros Hfresh Ht db'.
  destruct (checkMutualLike_is_Some db' a b) as (r' & -> & Hr').
  destruct (checkMutualLike_is_Some db a b) as (r & -> & Hr).
  exists r, r'. split; [done|]. split; [done|].
  rewrite Hr', Hr. subst db'. rewrite !likesToward_createLike by done.
  tauto.
Qed.

Lemma only_like_counts_witness :
  ∃ r r',
    fst (checkMutualLike 1 3 tt
           (snd (createLike 3 1 "superlike" at12
              (snd (createLike 1 3 "like" at11 mutualDb))))) = Ok r' ∧
    fst (checkMutualLike 1 3 tt
           (snd (createLike 1 3 "like" at11 mutualDb))) = Ok r ∧
    (is_Some r' ↔ is_Some r).
Proof.
  apply (only_like_counts (snd (createLike 1 3 "like" at11 mutualDb))
           3 1 "superlike" at12 1 3); [by vm_compute|done].
Defined.

(** A like answered by a super-like makes no match. *)
Example superlike_is_no_match :
  fst (checkMutualLike 1 3 tt
         (snd (createLike 3 1 "superlike" at12
            (snd (createLike 1 3 "like" at11 mutualDb))))) = Ok None.
Proof. by vm_compute. Qed.

(** ** Messages *)

Lemma byTime_trans : Transitive byTime.
Proof. intros a b c. unfold byTime. lia. Qed.

Lemma byTime_total : Total byTime.
Proof. intros a b. unfold byTime. lia. Qed.

Lemma getMatchMessages_run (matchId' : Z) (db : DB) :
  getMatchMessages matchId' tt db =
  (Ok (merge_sort byTime
         (List.filter (λ m, matchId (snd m) =? matchId')
            (getAll (messages db)))), db).
Proof. reflexivity. Qed.

(** X14: [getMatchMessages(matchId)] resolves to the messages of that
    match, every one of them once and no other, oldest first, and leaves
    the store as it is. *)
Theorem getMatchMessages_sorted (matchId' : Z) (db : DB) :
  ∃ l, getMatchMessages matchId' tt db = (Ok l, db) ∧
       (∀ id m, (id, m) ∈ l ↔
                messages db !! id = Some m ∧ matchId m = matchId') ∧
       NoDup l.*1 ∧
       StronglySorted byTime l.
Proof.
  rewrite getMatchMessages_run. eexists. split; [reflexivity|].
  split; [|split].
  - intros id m.
    rewrite merge_sort_Permutation, filter_bool, list_elem_of_filter,
      elem_of_getAll.
    cbn [snd]. rewrite Z.eqb_eq. tauto.
  - rewrite merge_sort_Permutation, filter_bool.
    eapply sublist_NoDup; [apply (NoDup_fst_getAll (messages db))|].
    apply fmap_sublist, sublist_filter.
  - apply (@StronglySorted_merge_sort _ byTime _ byTime_trans byTime_total).
Qed.

Lemma createMessage_run (m s : Z) (t : string) (env : AddEnv) (db : DB) :
  messages db !! generated env = None →
  createMessage m s t env db =
  (Ok (generated env,
       {| matchId := m; senderId := s; text := t;
          timestamp := nowInstant env; read := false |}),
   {| likes := likes db;
      messages := <[generated env :=
                     {| matchId := m; senderId := s; text := t;
                        timestamp := nowInstant env; read := false |}]>
                  (messages db) |}).
Proof.
  intros Hfresh. unfold createMessage, bind, ask, get, modify, ret.
  by rewrite Hfresh.
Qed.

Lemma elem_of_getMatchMessages (matchId' : Z) (db : DB) (id : Z)
    (m : Message) :
  (∃ l, fst (getMatchMessages matchId' tt db) = Ok l ∧ (id, m) ∈ l) ↔
  messages db !! id = Some m ∧ matchId m = matchId'.
Proof.
  rewrite getMatchMessages_run. cbn [fst]. split.
  - intros (l & [= <-] & Hin). revert Hin.
    rewrite merge_sort_Permutation, filter_bool, list_elem_of_filter,
      elem_of_getAll.
    cbn [snd]. rewrite Z.eqb_eq. tauto.
  - intros [Hs Hm]. eexists. split; [reflexivity|].
    rewrite merge_sort_Permutation, filter_bool, list_elem_of_filter,
      elem_of_getAll.
    cbn [snd]. rewrite Z.eqb_eq. tauto.
Qed.

(** X15: a message sent with [createMessage] is then among the messages
    of its match, unread and under the key the promise resolved with; the
    messages the store held are all still there, and the lists of the
    other matches hold what they held. *)
Theorem createMessage_delivered (m s : Z) (t : string) (env : AddEnv)
    (db : DB) :
  messages db !! generated env = None →
  ∃ id message db',
    createMessage m s t env db = (Ok (id, message), db') ∧
    read message = false ∧ senderId message = s ∧ text message = t ∧
    (∃ l, fst (getMatchMessages m tt db') = Ok l ∧ (id, message) ∈ l) ∧
    (∀ m' l l' x,
       fst (getMatchMessages m' tt db) = Ok l →
       fst (getMatchMessages m' tt db') = Ok l' →
       (x ∈ l → x ∈ l') ∧ (m' ≠ m → x ∈ l' → x ∈ l)) ∧
    likes db' = likes db.
Proof.
  intros Hfresh. rewrite createMessage_run by done.
  eexists _, _, _. split; [reflexivity|]. cbn [read senderId text likes].
  do 3 (split; [done|]). split; [|split; [|done]].
  - apply elem_of_getMatchMessages. cbn [messages matchId].
    by rewrite lookup_insert_eq.
  - intros m' l l' [id x] Hl Hl'. split.
    + intros Hin.
      assert (messages db !! id = Some x ∧ matchId x = m') as [Hx Hm].
      { apply elem_of_getMatchMessages. by exists l. }
      match goal with
      | H : fst (getMatchMessages m' tt ?d) = Ok l' |- _ =>
          destruct (proj2 (elem_of_getMatchMessages m' d id x))
            as (l'' & Hl'' & Hin'')
      end.
      { cbn [messages]. split; [|done].
        rewrite lookup_insert_ne; [done|]. congruence. }
      congruence.
    + intros Hne Hin.
      match goal with
      | H : fst (getMatchMessages m' tt ?d) = Ok l' |- _ =>
          destruct (proj1 (elem_of_getMatchMessages m' d id x))
            as [Hx Hm]; [by exists l'|]
      end.
      cbn [messages] in Hx.
      destruct (decide (id = generated env)) as [->|Hid].
      * rewrite lookup_insert_eq in Hx. injection Hx as <-. done.
      * rewrite lookup_insert_ne in Hx by done.
        destruct (proj2 (elem_of_getMatchMessages m' db id x))
          as (l'' & Hl'' & Hin''); [done|]. congruence.
Qed.

Lemma createMessage_delivered_witness :
  ∃ id message db',
    createMessage 7 2 "still there?" at11 chatDb = (Ok (id, message), db') ∧
    read message = false ∧ senderId message = 2 ∧
    text message = "still there?" ∧
    (∃ l, fst (getMatchMessages 7 tt db') = Ok l ∧ (id, message) ∈ l) ∧
    (∀ m' l l' x,
       fst (getMatchMessages m' tt chatDb) = Ok l →
       fst (getMatchMessages m' tt db') = Ok l' →
       (x ∈ l → x ∈ l') ∧ (m' ≠ 7 → x ∈ l' → x ∈ l)) ∧
    likes db' = likes chatDb.
Proof.
  apply (createMessage_delivered 7 2 "still there?" at11 chatDb).
  by vm_compute.
Defined.

(** The store after [markMessagesAsRead], as a whole. *)
Lemma markMessagesAsRead_run (matchId' userId : Z) (db : DB) :
  ∃ acks, markMessagesAsRead matchId' userId tt db =
          (Ok acks,
           {| likes := likes db;
              messages := marked matchId' userId <$> messages db |}).
Proof.
  unfold markMessagesAsRead, bind at 1, getMatchMessages, bind at 1, get, ret.
  rewrite forAll_put_run. eexists. f_equal. f_equal.
  apply map_eq. intros id. cbn [messages].
  rewrite (foldl_insert_lookup asRead) by apply unreadMessages_NoDup.
  rewrite lookup_fmap. unfold marked.
  destruct (list_to_map _ !! id) as [m|] eqn:Hl.
  - apply elem_of_list_to_map_2, elem_of_unreadMessages in Hl as [Hs Hu].
    rewrite Hs. cbn. by rewrite decide_True.
  - destruct (messages db !! id) as [m|] eqn:Hs; [|done]. cbn.
    rewrite decide_False; [done|]. intros Hu.
    apply not_elem_of_list_to_map_2 in Hl. apply Hl.
    apply list_elem_of_fmap. exists (id, m). split; [done|].
    by apply elem_of_unreadMessages.
Qed.

Lemma marked_read (matchId' userId : Z) (m : Message) :
  ¬ unreadBy matchId' userId (marked matchId' userId m).
Proof.
  unfold marked. destruct (decide (unreadBy matchId' userId m)) as [H|H].
  - by intros (_ & _ & ?).
  - done.
Qed.

(** X16: once [markMessagesAsRead(matchId, userId)] has run, the store
    holds no message of that match that [userId] did not send and has not
    read, and running it again changes nothing. *)
Theorem markMessagesAsRead_idempotent (matchId' userId : Z) (db : DB) :
  let db' := snd (markMessagesAsRead matchId' userId tt db) in
  (∀ id m, messages db' !! id = Some m → ¬ unreadBy matchId' userId m) ∧
  snd (markMessagesAsRead matchId' userId tt db') = db'.
Proof.
  cbv zeta.
  destruct (markMessagesAsRead_run matchId' userId db) as [acks ->].
  cbn [snd]. split.
  - intros id m. cbn [messages]. rewrite lookup_fmap.
    destruct (messages db !! id) as [m0|]; [|done].
    intros [= <-]. apply marked_read.
  - destruct (markMessagesAsRead_run matchId' userId
                {| likes := likes db;
                   messages := marked matchId' userId <$> messages db |})
      as [acks' ->].
    cbn [snd likes messages]. f_equal.
    rewrite <- map_fmap_compose. apply map_fmap_ext.
    intros id m _. cbn. unfold marked at 1.
    rewrite decide_False; [done|]. apply marked_read.
Qed.

(** ** Notifications *)

Lemma newestFirst_trans : Transitive Notifications.newestFirst.
Proof. intros a b c. unfold Notifications.newestFirst. lia. Qed.

Lemma newestFirst_total : Total Notifications.newestFirst.
Proof. intros a b. unfold Notifications.newestFirst. lia. Qed.

(** X17: [getUserNotifications(userId)] resolves to the notifications of
    that user, every one of them once and no other, newest first, and
    leaves the store as it is. *)
Theorem getUserNotifications_sorted (userId' : Z)
    (store : gmap Z Notifications.Notification) :
  ∃ l, Notifications.getUserNotifications userId' tt store = (Ok l, store) ∧
       (∀ id n, (id, n) ∈ l ↔
                store !! id = Some n ∧ Notifications.userId n = userId') ∧
       NoDup l.*1 ∧
       StronglySorted Notifications.newestFirst l.
Proof.
  unfold Notifications.getUserNotifications, bind, get, ret. cbv zeta.
  eexists. split; [reflexivity|]. split; [|split].
  - intros id n.
    rewrite merge_sort_Permutation, filter_bool, list_elem_of_filter,
      elem_of_getAll.
    cbn [snd]. rewrite Z.eqb_eq. tauto.
  - rewrite merge_sort_Permutation, filter_bool.
    eapply sublist_NoDup; [apply (NoDup_fst_getAll store)|].
    apply fmap_sublist, sublist_filter.
  - apply (@StronglySorted_merge_sort _ Notifications.newestFirst _
             newestFirst_trans newestFirst_total).
Qed.

(** X18: [markNotificationAsRead(id)] rejects when no notification has the
    key, and then changes nothing; otherwise it resolves with that
    notification, marked read and otherwise as stored, and the store
    differs at that key alone.  A second call stores nothing new. *)
Theorem markNotificationAsRead_spec (id : Z)
    (store : gmap Z Notifications.Notification) :
  match store !! id with
  | None =>
      Notifications.markNotificationAsRead id tt store = (Throw Error, store)
  | Some n =>
      let n' := Notifications.setRead n in
      let store' := snd (Notifications.markNotificationAsRead id tt store) in
      Notifications.markNotificationAsRead id tt store =
        (Ok (id, n'), <[id := n']> store) ∧
      Notifications.read n' = true ∧
      Notifications.userId n' = Notifications.userId n ∧
      Notifications.type n' = Notifications.type n ∧
      Notifications.message n' = Notifications.message n ∧
      Notifications.data n' = Notifications.data n ∧
      Notifications.timestamp n' = Notifications.timestamp n ∧
      (∀ k, k ≠ id → store' !! k = store !! k) ∧
      snd (Notifications.markNotificationAsRead id tt store') = store'
  end.
Proof.
  unfold Notifications.markNotificationAsRead, bind, get, modify, ret, throw.
  destruct (store !! id) as [n|] eqn:Hn; [|done].
  cbv zeta. cbn [snd]. repeat split.
  - intros k Hk. by rewrite lookup_insert_ne.
  - rewrite lookup_insert_eq. cbn [snd]. by rewrite insert_insert_eq.
Qed.

(** In the sample inbox user 1 sees the newer notification first, and
    marking notification 2 leaves the unread notification of user 2 unread. *)
Example inbox_ex :
  (fst (Notifications.getUserNotifications 1 tt inbox)) =
    Ok [(2, {| Notifications.userId := 1; Notifications.type := "message";
               Notifications.message := "New message";
               Notifications.data := JNull;
               Notifications.timestamp := 20; Notifications.read := false |});
        (1, {| Notifications.userId := 1; Notifications.type := "match";
               Notifications.message := "It's a match!";
               Notifications.data := JNull;
               Notifications.timestamp := 10; Notifications.read := true |})] ∧
  Notifications.read <$>
    snd (Notifications.markNotificationAsRead 2 tt inbox) !! 3 = Some false ∧
  fst (Notifications.markNotificationAsRead 9 tt inbox) = Throw Error.
Proof. by vm_compute. Qed.

(** ** Users *)

Lemma getByEmail_Some (store : gmap Z Users.User) (email : string)
    (id : Z) (u : Users.User) :
  Users.getByEmail store email = Some (id, u) →
  store !! id = Some u ∧ Users.email u = email.
Proof.
  unfold Users.getByEmail. intros Hf. apply find_some in Hf as [Hin He].
  split.
  - by apply elem_of_getAll, list_elem_of_In.
  - by apply String.eqb_eq in He.
Qed.

Lemma getByEmail_is_Some (store : gmap Z Users.User) (email : string) :
  is_Some (Users.getByEmail store email) ↔ registered store email.
Proof.
  unfold Users.getByEmail. rewrite find_getAll. unfold registered.
  split; intros (id & u & Hs & He); exists id, u; (split; [done|]).
  - by apply String.eqb_eq in He.
  - cbn [snd]. by apply String.eqb_eq.
Qed.

Lemma createUser_run `{Parsing} (userData : Users.UserData) (env : AddEnv)
    (store : gmap Z Users.User) :
  ¬ registered store (Users.data_email userData) →
  store !! generated env = None →
  ∃ user,
    Users.createUser userData env store =
      (Ok (generated env, user), <[generated env := user]> store) ∧
    Users.email user = Users.data_email userData ∧
    Users.password user = Users.data_password userData ∧
    Users.name user = Users.data_name userData.
Proof.
  intros Hnew Hfresh. unfold Users.createUser, bind at 1, get.
  destruct (Users.getByEmail store _) as [x|] eqn:Hg.
  { exfalso. apply Hnew, getByEmail_is_Some. by rewrite Hg. }
  unfold bind, ask, modify, ret. rewrite Hfresh.
  eexists. split; [reflexivity|]. done.
Qed.

(** X19: a user created with [createUser], under an email not yet
    registered, is the user [verifyUser] resolves to for that email and
    password; with any other password [verifyUser] rejects. *)
Theorem createUser_verifyUser `{Parsing} (userData : Users.UserData)
    (env : AddEnv) (store : gmap Z Users.User) (other : string) :
  ¬ registered store (Users.data_email userData) →
  store !! generated env = None →
  ∃ user store',
    Users.createUser userData env store = (Ok user, store') ∧
    Users.verifyUser (Users.data_email userData)
      (Users.data_password userData) tt store' = (Ok user, store') ∧
    (other ≠ Users.data_password userData →
     Users.verifyUser (Users.data_email userData) other tt store' =
       (Throw Error, store')).
Proof.
  intros Hnew Hfresh.
  destruct (createUser_run userData env store Hnew Hfresh)
    as (user & -> & He & Hp & _).
  eexists _, _. split; [reflexivity|].
  assert (Users.getByEmail (<[generated env := user]> store)
            (Users.data_email userData) = Some (generated env, user)) as Hg.
  { destruct (Users.getByEmail _ _) as [[id u]|] eqn:Hg.
    - apply getByEmail_Some in Hg as [Hs Hu].
      destruct (decide (id = generated env)) as [->|Hne].
      + rewrite lookup_insert_eq in Hs. by injection Hs as <-.
      + rewrite lookup_insert_ne in Hs by done.
        exfalso. apply Hnew. by exists id, u.
    - assert (is_Some (Users.getByEmail (<[generated env := user]> store)
                         (Users.data_email userData))) as [x Hx].
      { apply getByEmail_is_Some. exists (generated env), user.
        by rewrite lookup_insert_eq. }
      congruence. }
  unfold Users.verifyUser, bind, get, throw, ret. rewrite Hg. cbn [snd].
  rewrite Hp. split.
  - by rewrite String.eqb_refl.
  - intros Hother. apply not_eq_sym, String.eqb_neq in Hother.
    by rewrite Hother.
Qed.

Lemma createUser_verifyUser_witness :
  ∃ user store',
    @Users.createUser numberParsing gina at11 ∅ = (Ok user, store') ∧
    Users.verifyUser "gina@example.com" "Secret123" tt store' =
      (Ok user, store') ∧
    ("secret123" ≠ "Secret123" →
     Users.verifyUser "gina@example.com" "secret123" tt store' =
       (Throw Error, store')).
Proof.
  apply (@createUser_verifyUser numberParsing gina at11 ∅ "secret123").
  - intros (id & u & Hu & _). by rewrite lookup_empty in Hu.
  - apply lookup_empty.
Defined.

(** X20: [createUser] rejects an email that is already registered and
    then leaves the store as it is; when it resolves, the store keeps its
    users, gains the new one, and no two users share an email if none did
    before. *)
Theorem createUser_unique `{Parsing} (userData : Users.UserData)
    (env : AddEnv) (store : gmap Z Users.User) :
  uniqueEmails store →
  (registered store (Users.data_email userData) →
   Users.createUser userData env store = (Throw Error, store)) ∧
  (∀ user store',
     Users.createUser userData env store = (Ok user, store') →
     uniqueEmails store' ∧
     store' !! fst user = Some (snd user) ∧
     (∀ id u, store !! id = Some u → store' !! id = Some u)).
Proof.
  intros Huniq. split.
  - intros Hreg. apply getByEmail_is_Some in Hreg as [x Hx].
    unfold Users.createUser, bind, get, throw. by rewrite Hx.
  - intros user store'. unfold Users.createUser, bind at 1, get.
    destruct (Users.getByEmail store _) as [x|] eqn:Hg; [done|].
    unfold bind, ask, modify, ret, throw.
    destruct (store !! generated env) eqn:Hfresh; [done|].
    intros [= <- <-]. cbn [fst snd].
    assert (¬ registered store (Users.data_email userData)) as Hnew.
    { intros Hreg. apply getByEmail_is_Some in Hreg as [x Hx]. congruence. }
    split; [|split].
    + intros id1 id2 u1 u2 H1 H2 He.
      destruct (decide (id1 = generated env)) as [->|N1],
               (decide (id2 = generated env)) as [->|N2]; [done|..].
      * rewrite lookup_insert_eq in H1. injection H1 as <-.
        rewrite lookup_insert_ne in H2 by done.
        exfalso. apply Hnew. by exists id2, u2.
      * rewrite lookup_insert_eq in H2. injection H2 as <-.
        rewrite lookup_insert_ne in H1 by done.
        exfalso. apply Hnew. by exists id1, u1.
      * rewrite lookup_insert_ne in H1, H2 by done. by eapply Huniq.
    + apply lookup_insert_eq.
    + intros id u Hu. rewrite lookup_insert_ne; [done|]. congruence.
Qed.

Lemma createUser_unique_witness :
  let created := @Users.createUser numberParsing gina at11 ∅ in
  @Users.createUser numberParsing gina at12 (snd created) =
    (Throw Error, snd created) ∧
  uniqueEmails (snd created).
Proof.
  assert (uniqueEmails (∅ : gmap Z Users.User)) as H0.
  { intros id1 id2 u1 u2 H1. by rewrite lookup_empty in H1. }
  destruct (@createUser_unique numberParsing gina at11 ∅ H0) as [_ Hok].
  destruct (@Users.createUser numberParsing gina at11 ∅)
    as [[user|e] store'] eqn:E; [|by vm_compute in E].
  destruct (Hok user store' eq_refl) as (Hu & Hin & _).
  cbv zeta. cbn [snd]. split; [|exact Hu].
  apply (@createUser_unique numberParsing gina at12 store' Hu).
  exists (fst user), (snd user). split; [exact Hin|].
  assert (fst (@Users.createUser numberParsing gina at11 ∅) = Ok user) as E1
    by (by rewrite E).
  vm_compute in E1. by injection E1 as <-.
Defined.

(** X21: [verifyUser] only reads the store, and resolves only with a
    stored user who has that email and exactly that password. *)
Theorem verifyUser_sound (email password : string)
    (store : gmap Z Users.User) :
  snd (Users.verifyUser email password tt store) = store ∧
  ∀ id u, fst (Users.verifyUser email password tt store) = Ok (id, u) →
          store !! id = Some u ∧ Users.email u = email ∧
          Users.password u = password.
Proof.
  unfold Users.verifyUser, bind, get, throw, ret.
  destruct (Users.getByEmail store email) as [[id0 u0]|] eqn:Hg; [|done].
  cbn [snd]. destruct (String.eqb (Users.password u0) password) eqn:Hp;
    cbn [negb fst snd]; [|done].
  split; [done|]. intros id u [= <- <-].
  apply getByEmail_Some in Hg as [Hs He]. by apply String.eqb_eq in Hp.
Qed.

(** ** Matches *)

Lemma elem_of_getUserMatches (userId : Z) (store : gmap Z Matches.Match)
    (id : Z) (m : Matches.Match) :
  (∃ l, fst (Matches.getUserMatches userId tt store) = Ok l ∧ (id, m) ∈ l) ↔
  store !! id = Some m ∧
  (Matches.user1Id m = userId ∨ Matches.user2Id m = userId).
Proof.
  unfold Matches.getUserMatches, bind, get, ret. cbn [fst].
  assert ((id, m) ∈ List.filter
            (λ m, (Matches.user1Id (snd m) =? userId) ||
                  (Matches.user2Id (snd m) =? userId)) (getAll store) ↔
          store !! id = Some m ∧
          (Matches.user1Id m = userId ∨ Matches.user2Id m = userId)) as Hiff.
  { rewrite filter_bool, list_elem_of_filter, elem_of_getAll. cbn [snd].
    rewrite orb_true_iff, !Z.eqb_eq. tauto. }
  split.
  - intros (l & [= <-] & Hin). by apply Hiff.
  - intros H. eexists. split; [reflexivity|]. by apply Hiff.
Qed.

(** X22: a match made with [createMatch(a, b)] is listed by
    [getUserMatches] for [a] and for [b], and for no third user; what the
    lists held before, they still hold. *)
Theorem createMatch_listed (a b : Z) (env : AddEnv)
    (store : gmap Z Matches.Match) :
  store !! generated env = None →
  ∃ id m store',
    Matches.createMatch a b env store = (Ok (id, m), store') ∧
    Matches.user1Id m = a ∧ Matches.user2Id m = b ∧
    ∀ u l l',
      fst (Matches.getUserMatches u tt store) = Ok l →
      fst (Matches.getUserMatches u tt store') = Ok l' →
      ((id, m) ∈ l' ↔ u = a ∨ u = b) ∧
      (∀ x, x ∈ l → x ∈ l') ∧
      (∀ x, x ∈ l' → x ≠ (id, m) → x ∈ l).
Proof.
  intros Hfresh.
  unfold Matches.createMatch, bind, ask, get, modify, ret. rewrite Hfresh.
  eexists _, _, _. split; [reflexivity|].
  cbn [Matches.user1Id Matches.user2Id]. do 2 (split; [done|]).
  intros u l l' Hl Hl'.
  set (m := {| Matches.user1Id := a; Matches.user2Id := b;
               Matches.timestamp := nowISO env;
               Matches.lastMessage := JNull |}) in *.
  assert (∀ id' x, (id', x) ∈ l ↔
            store !! id' = Some x ∧
            (Matches.user1Id x = u ∨ Matches.user2Id x = u)) as Hin.
  { intros id' x. rewrite <- elem_of_getUserMatches. split.
    - intros ?. by exists l.
    - intros (l0 & E & ?). congruence. }
  assert (∀ id' x, (id', x) ∈ l' ↔
            <[generated env := m]> store !! id' = Some x ∧
            (Matches.user1Id x = u ∨ Matches.user2Id x = u)) as Hin'.
  { intros id' x. rewrite <- elem_of_getUserMatches. split.
    - intros ?. by exists l'.
    - intros (l0 & E & ?). congruence. }
  split; [|split].
  - rewrite Hin', lookup_insert_eq. cbn [Matches.user1Id Matches.user2Id m].
    split; [intros [_ [?|?]]; auto|intros [?|?]; auto].
  - intros [id' x]. rewrite Hin, Hin'. intros [Hs Hu]. split; [|done].
    rewrite lookup_insert_ne; [done|]. congruence.
  - intros [id' x]. rewrite Hin, Hin'. intros [Hs Hu] Hne. split; [|done].
    destruct (decide (id' = generated env)) as [->|Hk].
    + rewrite lookup_insert_eq in Hs. injection Hs as <-. done.
    + by rewrite lookup_insert_ne in Hs.
Qed.

Lemma createMatch_listed_witness :
  ∃ id m store',
    Matches.createMatch 1 2 at11 ∅ = (Ok (id, m), store') ∧
    Matches.user1Id m = 1 ∧ Matches.user2Id m = 2 ∧
    ∀ u l l',
      fst (Matches.getUserMatches u tt ∅) = Ok l →
      fst (Matches.getUserMatches u tt store') = Ok l' →
      ((id, m) ∈ l' ↔ u = 1 ∨ u = 2) ∧
      (∀ x, x ∈ l → x ∈ l') ∧
      (∀ x, x ∈ l' → x ≠ (id, m) → x ∈ l).
Proof. apply (createMatch_listed 1 2 at11 ∅). apply lookup_empty. Defined.

(** ** Calls to the backend *)

Lemma apiCall_run (endpoint method : string) (outcome : FetchOutcome)
    (this : BackendAPI.Api) :
  BackendAPI.apiCall endpoint method outcome this =
  (match outcome with
   | Rejects e => Throw (rethrown e)
   | Resolves response =>
       if ok response then
         match json response with
         | Ok v => Ok v
         | Throw e => Throw (rethrown e)
         end
       else Throw Error
   end,
   if sessionExpired endpoint outcome then
     {| BackendAPI.token := BackendAPI.token this;
        BackendAPI.currentUserId := BackendAPI.currentUserId this;
        BackendAPI.localStorage :=
          delete "user_id"
            (delete "auth_token" (BackendAPI.localStorage this)) |}
   else this).
Proof.
  unfold BackendAPI.apiCall, try_catch, bind, ask, throw, lift_res,
    BackendAPI.removeItem, modify, ret, rethrown, sessionExpired,
    isAuthEndpoint.
  destruct outcome as [e|response].
  - by destruct (String.eqb (exn_name e) "TypeError").
  - unfold ok. destruct (Z.eqb_spec (status response) 401) as [->|Hne].
    + cbn. by destruct (String.eqb endpoint "/auth/login" ||
                        String.eqb endpoint "/auth/register").
    + cbn [andb negb].
      destruct ((200 <=? status response) && (status response <=? 299));
        cbn [negb]; [|done].
      destruct (json response) as [v|e]; [done|].
      by destruct (String.eqb (exn_name e) "TypeError").
Qed.

(** X23: [apiCall] never touches the [token] and [currentUserId] fields
    and never adds or changes an entry of [localStorage]: so
    [isLoggedIn()] answers after the call as before it.  On a 401 from an
    endpoint other than login and registration, and only then, it removes
    [auth_token] and [user_id] from [localStorage], so that a client built
    afterwards is logged out. *)
Theorem apiCall_session (endpoint method : string) (outcome : FetchOutcome)
    (this : BackendAPI.Api) :
  let this' := snd (BackendAPI.apiCall endpoint method outcome this) in
  BackendAPI.token this' = BackendAPI.token this ∧
  BackendAPI.currentUserId this' = BackendAPI.currentUserId this ∧
  BackendAPI.isLoggedIn this' = BackendAPI.isLoggedIn this ∧
  (if sessionExpired endpoint outcome then
     BackendAPI.localStorage this' =
       delete "user_id" (delete "auth_token" (BackendAPI.localStorage this)) ∧
     BackendAPI.isLoggedIn (BackendAPI.new (BackendAPI.localStorage this')) =
       false
   else BackendAPI.localStorage this' = BackendAPI.localStorage this).
Proof.
  cbv zeta. rewrite apiCall_run. cbn [snd].
  destruct (sessionExpired endpoint outcome); [|done].
  cbn [BackendAPI.token BackendAPI.currentUserId BackendAPI.localStorage].
  do 3 (split; [done|]). split; [done|].
  unfold BackendAPI.isLoggedIn, BackendAPI.new, BackendAPI.getItem.
  cbn [BackendAPI.token BackendAPI.currentUserId].
  by rewrite lookup_delete_ne, lookup_delete_eq.
Qed.

(** X24: [apiCall] resolves exactly when the request is answered with an
    [ok] status and a body that parses, and then to that body; it never
    rejects with a [TypeError], which it replaces by a plain [Error]. *)
Theorem apiCall_outcome (endpoint method : string) (outcome : FetchOutcome)
    (this : BackendAPI.Api) :
  (∀ v, fst (BackendAPI.apiCall endpoint method outcome this) = Ok v ↔
        ∃ response, outcome = Resolves response ∧ ok response = true ∧
                    json response = Ok v) ∧
  (∀ e, fst (BackendAPI.apiCall endpoint method outcome this) = Throw e →
        exn_name e ≠ "TypeError").
Proof.
  rewrite apiCall_run. cbn [fst].
  assert (∀ e, exn_name (rethrown e) ≠ "TypeError") as Hre.
  { intros e. unfold rethrown.
    destruct (String.eqb (exn_name e) "TypeError") eqn:E; [done|].
    by apply String.eqb_neq. }
  split.
  - intros v. split.
    + destruct outcome as [e|response]; [done|].
      destruct (ok response) eqn:Hok; [|done].
      destruct (json response) as [w|e] eqn:Hj; [|done].
      intros [= ->]. by exists response.
    + intros (response & -> & -> & ->). done.
  - intros e. destruct outcome as [e0|response].
    + intros [= <-]. apply Hre.
    + destruct (ok response); [|by intros [= <-]].
      destruct (json response) as [w|e1]; [done|].
      intros [= <-]. apply Hre.
Qed.

(** ** Login *)

Lemma login_run `{Runtime} `{BackendAPI.Printing} (outcome : FetchOutcome)
    (this : BackendAPI.Api) :
  BackendAPI.login outcome this =
  match fst (BackendAPI.apiCall "/auth/login" "POST" outcome this) with
  | Ok result =>
      match get_prop result "access_token", get_prop result "user_id" with
      | Ok access_token, Ok user_id =>
          (Ok result,
           {| BackendAPI.token := access_token;
              BackendAPI.currentUserId := user_id;
              BackendAPI.localStorage :=
                <["user_id" := BackendAPI.ToString user_id]>
                  (<["auth_token" := BackendAPI.ToString access_token]>
                     (BackendAPI.localStorage this)) |})
      | Throw e, _ | _, Throw e => (Throw e, this)
      end
  | Throw e => (Throw e, this)
  end.
Proof.
  unfold BackendAPI.login, try_catch, bind at 1.
  rewrite apiCall_run. cbn [fst].
  assert (sessionExpired "/auth/login" outcome = false) as ->.
  { destruct outcome; [done|]. cbn. apply andb_false_r. }
  destruct (match outcome with Rejects _ => _ | Resolves _ => _ end)
    as [result|e]; [|done].
  unfold BackendAPI.storeSession, bind, lift_res, modify, get, ret, throw,
    BackendAPI.setItem.
  destruct result; cbn [get_prop]; try done.
  destruct (List.find _ fields), (List.find _ fields); done.
Qed.

(** X25: a login that fails, for whatever reason, leaves the client as it
    was: the two fields and [localStorage] are untouched, so a session
    that was there is still there. *)
Theorem login_failure_keeps_session `{Runtime} `{BackendAPI.Printing}
    (outcome : FetchOutcome) (this : BackendAPI.Api) (e : Exn) :
  fst (BackendAPI.login outcome this) = Throw e →
  snd (BackendAPI.login outcome this) = this.
Proof.
  rewrite login_run.
  destruct (fst (BackendAPI.apiCall _ _ _ _)) as [result|e0]; [|done].
  by destruct (get_prop result "access_token"), (get_prop result "user_id").
Qed.

Lemma login_failure_keeps_session_witness :
  snd (@BackendAPI.login emptyObjectRuntime zeroPrinting
         (answered 401 JNull) loggedIn) = loggedIn.
Proof.
  by apply (@login_failure_keeps_session emptyObjectRuntime zeroPrinting
              (answered 401 JNull) loggedIn Error).
Defined.

(** X26: after a login that succeeds, [token] and [currentUserId] are the
    [access_token] and the [user_id] of the reply, [localStorage] holds
    their texts under [auth_token] and [user_id] and is otherwise as
    before, and a client built afterwards, as on a reload, holds these
    texts in its two fields. *)
Theorem login_stores_session `{Runtime} `{BackendAPI.Printing}
    (outcome : FetchOutcome) (this : BackendAPI.Api) (result : JsVal) :
  fst (BackendAPI.login outcome this) = Ok result →
  let this' := snd (BackendAPI.login outcome this) in
  let reloaded := BackendAPI.new (BackendAPI.localStorage this') in
  Ok (BackendAPI.token this') = get_prop result "access_token" ∧
  Ok (BackendAPI.currentUserId this') = get_prop result "user_id" ∧
  BackendAPI.token reloaded =
    JStr (BackendAPI.ToString (BackendAPI.token this')) ∧
  BackendAPI.currentUserId reloaded =
    JStr (BackendAPI.ToString (BackendAPI.currentUserId this')) ∧
  ∀ k, k ≠ "auth_token" → k ≠ "user_id" →
       BackendAPI.localStorage this' !! k = BackendAPI.localStorage this !! k.
Proof.
  rewrite login_run.
  destruct (fst (BackendAPI.apiCall _ _ _ _)) as [result0|e0]; [|done].
  destruct (get_prop result0 "access_token") as [tk|] eqn:Ht; [|done].
  destruct (get_prop result0 "user_id") as [uid|] eqn:Hu; [|done].
  cbn [fst snd]. intros [= <-]. cbv zeta.
  cbn [BackendAPI.token BackendAPI.currentUserId BackendAPI.localStorage].
  unfold BackendAPI.new, BackendAPI.getItem.
  cbn [BackendAPI.token BackendAPI.currentUserId].
  rewrite lookup_insert_eq, lookup_insert_ne, lookup_insert_eq by done.
  repeat split; try done.
  intros k H1 H2. by rewrite !lookup_insert_ne.
Qed.

Lemma login_stores_session_witness :
  let this' := snd (@BackendAPI.login emptyObjectRuntime zeroPrinting
                      (answered 200 loginReply) loggedOut) in
  let reloaded := BackendAPI.new (BackendAPI.localStorage this') in
  Ok (BackendAPI.token this') = get_prop loginReply "access_token" ∧
  Ok (BackendAPI.currentUserId this') = get_prop loginReply "user_id" ∧
  BackendAPI.token reloaded =
    JStr (@BackendAPI.ToString emptyObjectRuntime zeroPrinting
            (BackendAPI.token this')) ∧
  BackendAPI.currentUserId reloaded =
    JStr (@BackendAPI.ToString emptyObjectRuntime zeroPrinting
            (BackendAPI.currentUserId this')) ∧
  ∀ k, k ≠ "auth_token" → k ≠ "user_id" →
       BackendAPI.localStorage this' !! k =
       BackendAPI.localStorage loggedOut !! k.
Proof.
  apply (@login_stores_session emptyObjectRuntime zeroPrinting
           (answered 200 loginReply) loggedOut loginReply).
  reflexivity.
Defined.

(** After the sample login the client is logged in, and so is a client
    built from the storage it leaves. *)
Example login_ex :
  let this' := snd (@BackendAPI.login emptyObjectRuntime zeroPrinting
                      (answered 200 loginReply) loggedOut) in
  BackendAPI.token this' = JStr "tok-1" ∧
  BackendAPI.isLoggedIn this' = true ∧
  BackendAPI.isLoggedIn (BackendAPI.new (BackendAPI.localStorage this')) = true.
Proof. by vm_compute. Qed.

(** X27: a reply to the login that lacks [access_token] leaves the client
    not logged in, yet stores the text [undefined] as the token: a client
    built afterwards takes it for a token, and is logged in if the reply
    had a user id. *)
Theorem login_without_token `{Runtime} `{BackendAPI.Printing}
    (outcome : FetchOutcome) (this : BackendAPI.Api) (result user_id : JsVal) :
  fst (BackendAPI.login outcome this) = Ok result →
  get_prop result "access_token" = Ok JUndefined →
  get_prop result "user_id" = Ok user_id →
  BackendAPI.ToString user_id ≠ "" →
  let this' := snd (BackendAPI.login outcome this) in
  BackendAPI.isLoggedIn this' = false ∧
  BackendAPI.localStorage this' !! "auth_token" = Some "undefined" ∧
  BackendAPI.isLoggedIn (BackendAPI.new (BackendAPI.localStorage this')) = true.
Proof.
  rewrite login_run.
  destruct (fst (BackendAPI.apiCall _ _ _ _)) as [result0|e0]; [|done].
  destruct (get_prop result0 "access_token") as [tk|] eqn:Ht; [|done].
  destruct (get_prop result0 "user_id") as [uid|] eqn:Hu; [|done].
  cbn [fst snd]. intros [= <-] Ht' Hu' Hne. cbv zeta.
  assert (tk = JUndefined) as -> by congruence.
  assert (uid = user_id) as -> by congruence.
  unfold BackendAPI.isLoggedIn, BackendAPI.new, BackendAPI.getItem.
  cbn [BackendAPI.token BackendAPI.currentUserId BackendAPI.localStorage].
  rewrite lookup_insert_eq, lookup_insert_ne, lookup_insert_eq by done.
  split; [done|]. split; [done|]. cbn.
  apply String.eqb_neq in Hne. by rewrite Hne.
Qed.

Lemma login_without_token_witness :
  let this' := snd (@BackendAPI.login emptyObjectRuntime zeroPrinting
                      (answered 200 tokenlessReply) loggedOut) in
  BackendAPI.isLoggedIn this' = false ∧
  BackendAPI.localStorage this' !! "auth_token" = Some "undefined" ∧
  BackendAPI.isLoggedIn (BackendAPI.new (BackendAPI.localStorage this')) = true.
Proof.
  apply (@login_without_token emptyObjectRuntime zeroPrinting
           (answered 200 tokenlessReply) loggedOut tokenlessReply (JStr "42"));
    done.
Defined.

(** ** The address of the API *)

Lemma stripTrailingSlashes_slashes (s : string) :
  ∃ n, s = BackendAPI.stripTrailingSlashes s +:+ slashes n ∧
       (BackendAPI.stripTrailingSlashes s = "" → s = slashes n).
Proof.
  induction s as [|c s (n & Hs & He)]; [by exists 0%nat|].
  cbn [BackendAPI.stripTrailingSlashes].
  destruct (BackendAPI.stripTrailingSlashes s) as [|d t] eqn:E.
  - destruct (Ascii.eqb_spec c "/") as [->|Hc].
    + exists (S n). cbn. rewrite <- (He eq_refl). done.
    + exists n. cbn. rewrite <- (He eq_refl). done.
  - exists n. split; [|done]. cbn. by rewrite Hs at 1.
Qed.

Lemma stripTrailingSlashes_last (s t : string) :
  BackendAPI.stripTrailingSlashes s ≠ t +:+ "/".
Proof.
  revert t. induction s as [|c s IH]; intros t.
  - by destruct t.
  - cbn [BackendAPI.stripTrailingSlashes].
    destruct (BackendAPI.stripTrailingSlashes s) as [|d u] eqn:E.
    + destruct (Ascii.eqb_spec c "/") as [->|Hc].
      * by destruct t.
      * destruct t as [|e t']; cbn.
        -- intros [= ->]. done.
        -- intros [= _ Habs]. by destruct t'.
    + destruct t as [|e t]; cbn.
      * intros [=].
      * intros [= -> Hu]. by apply (IH t).
Qed.

Lemma or_str_firstNonEmpty (g s q : option string) :
  truthy_str (BackendAPI.or_str (BackendAPI.or_str g s) q) = true →
  BackendAPI.or_str (BackendAPI.or_str g s) q = firstNonEmpty [g; s; q].
Proof.
  unfold BackendAPI.or_str, firstNonEmpty. cbn [List.find].
  destruct (truthy_str g) eqn:Hg; cbn.
  - rewrite Hg. by destruct g.
  - destruct (truthy_str s) eqn:Hs; cbn.
    + by destruct s.
    + intros Hq. rewrite Hq. by destruct q.
Qed.

(** X28: when an address of the API is given, as the global
    [LOVEAI_API_BASE_URL], else as the [loveai_api_base_url] entry of
    [localStorage], else as the [api] parameter of the query, the first of
    these that is a non-empty string, [resolveApiBaseUrl] returns it without
    its trailing slashes: the result never ends in a slash, and the
    address given is the result followed by slashes only. *)
Theorem resolveApiBaseUrl_override (page : BackendAPI.Page) (o : string) :
  firstNonEmpty [BackendAPI.globalOverride page;
                 BackendAPI.storageOverride page;
                 BackendAPI.queryOverride page] = Some o →
  (∀ t, BackendAPI.resolveApiBaseUrl page ≠ t +:+ "/") ∧
  ∃ n, o = BackendAPI.resolveApiBaseUrl page +:+ slashes n.
Proof.
  intros Hfirst.
  assert (truthy_str (Some o) = true) as Ho.
  { unfold firstNonEmpty in Hfirst.
    destruct (List.find _ _) as [x|] eqn:Hf; [|done].
    apply find_some in Hf as [_ Hx]. cbn in Hfirst. by subst x. }
  assert (BackendAPI.or_str
            (BackendAPI.or_str (BackendAPI.globalOverride page)
               (BackendAPI.storageOverride page))
            (BackendAPI.queryOverride page) = Some o) as Hor.
  { rewrite <- Hfirst. apply or_str_firstNonEmpty.
    unfold BackendAPI.or_str, firstNonEmpty in *. cbn [List.find] in Hfirst.
    destruct (truthy_str (BackendAPI.globalOverride page)) eqn:Hg; cbn.
    - by rewrite Hg.
    - destruct (truthy_str (BackendAPI.storageOverride page)) eqn:Hs; cbn.
      + by rewrite Hs.
      + destruct (truthy_str (BackendAPI.queryOverride page)); [done|].
        done. }
  unfold BackendAPI.resolveApiBaseUrl. cbv zeta. rewrite Hor, Ho.
  cbn [default]. split.
  - intros t. apply stripTrailingSlashes_last.
  - destruct (stripTrailingSlashes_slashes o) as (n & Hn & _). by exists n.
Qed.

Lemma resolveApiBaseUrl_override_witness :
  BackendAPI.resolveApiBaseUrl lanPage = "https://api.example.com" ∧
  (∀ t, BackendAPI.resolveApiBaseUrl lanPage ≠ t +:+ "/") ∧
  ∃ n, "https://api.example.com///" =
       BackendAPI.resolveApiBaseUrl lanPage +:+ slashes n.
Proof.
  split; [reflexivity|].
  by apply (resolveApiBaseUrl_override lanPage "https://api.example.com///").
Defined.

Lemma Ascii_eqb_nat (a c : ascii) :
  Ascii.eqb a c = (nat_of_ascii a =? nat_of_ascii c)%nat.
Proof.
  destruct (Ascii.eqb_spec a c) as [->|Hne].
  - by rewrite Nat.eqb_refl.
  - symmetry. apply Nat.eqb_neq. intros E. apply Hne.
    by rewrite <- (ascii_nat_embedding a), <- (ascii_nat_embedding c), E.
Qed.

Lemma test172_range (a b : ascii) (rest : string) :
  BackendAPI.isDigit a = true → BackendAPI.isDigit b = true →
  BackendAPI.test172 ("172." +:+ String a (String b ("." +:+ rest))) =
  ((16 <=? twoDigits a b) && (twoDigits a b <=? 31))%nat.
Proof.
  change ("172." +:+ String a (String b ("." +:+ rest)))
    with (String "1" (String "7" (String "2" (String "."
            (String a (String b (String "." rest))))))).
  unfold BackendAPI.test172. cbv beta iota zeta.
  unfold BackendAPI.isDigit, twoDigits.
  rewrite !Ascii_eqb_nat.
  change (nat_of_ascii "1") with 49%nat. change (nat_of_ascii "2") with 50%nat.
  change (nat_of_ascii "3") with 51%nat.
  generalize (nat_of_ascii a) (nat_of_ascii b). intros x y Hx Hy.
  apply andb_true_iff in Hx as [Hx1 Hx2], Hy as [Hy1 Hy2].
  apply Nat.leb_le in Hx1, Hx2, Hy1, Hy2.
  unfold BackendAPI.isDigit.
  repeat match goal with
         | |- context [(?n =? ?m)%nat] => destruct (Nat.eqb_spec n m)
         | |- context [(?n <=? ?m)%nat] => destruct (Nat.leb_spec n m)
         end; cbn; try reflexivity; lia.
Qed.

(** X29: with no address of the API given, a page served from a host
    named [172.ab.…], [a] and [b] digits, talks to port 8000 of that host
    when [ab] is between 16 and 31, the private range, and to its own
    origin otherwise (the name not ending in [.local]). *)
Theorem resolveApiBaseUrl_172 (page : BackendAPI.Page) (a b : ascii)
    (rest : string) :
  firstNonEmpty [BackendAPI.globalOverride page;
                 BackendAPI.storageOverride page;
                 BackendAPI.queryOverride page] = None →
  BackendAPI.hostname page = "172." +:+ String a (String b ("." +:+ rest)) →
  BackendAPI.isDigit a = true → BackendAPI.isDigit b = true →
  BackendAPI.endsWith (BackendAPI.hostname page) ".local" = false →
  BackendAPI.resolveApiBaseUrl page =
  if ((16 <=? twoDigits a b) && (twoDigits a b <=? 31))%nat
  then "http://" +:+ BackendAPI.hostname page +:+ ":8000"
  else BackendAPI.origin page.
Proof.
  intros Hnone Hhost Ha Hb Hlocal.
  assert (truthy_str
            (BackendAPI.or_str
               (BackendAPI.or_str (BackendAPI.globalOverride page)
                  (BackendAPI.storageOverride page))
               (BackendAPI.queryOverride page)) = false) as Hor.
  { unfold BackendAPI.or_str, firstNonEmpty in *. cbn [List.find] in Hnone.
    destruct (truthy_str (BackendAPI.globalOverride page)) eqn:Hg.
    { destruct (BackendAPI.globalOverride page); [done|discriminate Hg]. }
    cbn. destruct (truthy_str (BackendAPI.storageOverride page)) eqn:Hs.
    { destruct (BackendAPI.storageOverride page); [done|discriminate Hs]. }
    destruct (truthy_str (BackendAPI.queryOverride page)) eqn:Hq; [|done].
    destruct (BackendAPI.queryOverride page); [done|discriminate Hq]. }
  unfold BackendAPI.resolveApiBaseUrl. cbv zeta. rewrite Hor, Hlocal.
  destruct page as [q s g h o]. cbn [BackendAPI.hostname BackendAPI.origin] in *.
  subst h. rewrite test172_range by done.
  set (inRange := ((16 <=? twoDigits a b) && (twoDigits a b <=? 31))%nat).
  cbn. by destruct inRange.
Qed.

Lemma resolveApiBaseUrl_172_witness :
  BackendAPI.resolveApiBaseUrl plainPage = "http://172.20.1.5:8000".
Proof.
  by rewrite (resolveApiBaseUrl_172 plainPage "2" "0" "1.5").
Defined.

(** A host of the same shape outside the range is taken for a public
    one. *)
Example resolveApiBaseUrl_public :
  BackendAPI.resolveApiBaseUrl
    {| BackendAPI.queryOverride := None; BackendAPI.storageOverride := None;
       BackendAPI.globalOverride := None; BackendAPI.hostname := "172.32.0.9";
       BackendAPI.origin := "https://172.32.0.9" |} = "https://172.32.0.9".
Proof. reflexivity. Qed.
